(** * Slot pool and double buffer: a shallow embedding

    The two fixed-capacity primitives of
    [examples/object_pool_vs_double_buffer.cpp] are embedded as pure
    functions over explicit states:

    - [EventPool<N>]  : a slot array, a separate [next_] link array and a
      [head_] index (an intrusive free list with sentinel [N]);
    - [DoubleBuffer<N>] : two [uint16_t] buffers and two role indices.

    Machine integers are [Z] with the wrap-around written out, C arrays are
    lists whose accesses are bounds-checked: an access outside the array is
    undefined behaviour in the source and is the outcome [UB] here. *)

From Stdlib Require Import ZArith Lia Ascii.
From stdpp Require Import base list list_numbers gmap strings.

#[local] Set Warnings "-clear-no-such-hyp".
Local Open Scope Z_scope.

(** ** Machine integers *)

Definition SIZE_MOD : Z := 2 ^ 64.
Definition to_size_t (z : Z) : Z := z mod SIZE_MOD.
Definition to_uint16 (z : Z) : Z := z mod 2 ^ 16.
Definition to_uint8 (z : Z) : Z := z mod 2 ^ 8.

(** ** Outcomes of the abstract machine *)

Inductive res (A : Type) : Type :=
| Ok (a : A)
| UB.
Arguments Ok {A} a.
Arguments UB {A}.

#[global] Instance res_ret : MRet res := λ A a, Ok a.
#[global] Instance res_bind : MBind res := λ A B f m,
  match m with
  | Ok a => f a
  | UB => UB
  end.

#[global] Instance res_fmap : FMap res := λ A B f m,
  match m with
  | Ok a => Ok (f a)
  | UB => UB
  end.

(** Case analysis on the calls a sequenced computation is made of. *)
Ltac res_inv H :=
  repeat match type of H with
  | context [mbind _ ?m] =>
      let E := fresh "E" in
      destruct m eqn:E; cbn [mbind res_bind] in H; [| discriminate H]
  end.

(** ** Fixed-size arrays indexed by machine integers *)

Definition load {A : Type} (a : list A) (i : Z) : res A :=
  if bool_decide (0 ≤ i) then
    match a !! Z.to_nat i with
    | Some x => Ok x
    | None => UB
    end
  else UB.

Definition store {A : Type} (a : list A) (i : Z) (x : A) : res (list A) :=
  if bool_decide (0 ≤ i < Z.of_nat (length a)) then Ok (<[Z.to_nat i := x]> a)
  else UB.

(** ** The event pool *)

Module Pool.

(** [struct Event { uint32_t ts; uint8_t type; uint8_t payload[8]; }] *)
Record Event : Type := mkEvent {
  ts : Z;
  type : Z;
  payload : list Z
}.

(** The value-initialised object [Event{}]: every member is zero. *)
Definition Event_zero : Event :=
  {| ts := 0; type := 0; payload := replicate 8 0 |}.

(** A slot of [storage_] either holds no object ([None]: raw bytes, before
    the placement [new] or after the destructor call) or a constructed
    [Event]. *)
Record EventPool : Type := mkPool {
  storage_ : list (option Event);
  next_ : list Z;
  head_ : Z
}.

(** An [Event*] as the pool hands it out: [nullptr], or the address of
    slot [idx] of [storage_]. *)
Inductive EventPtr : Type :=
| nullptr
| slot_ptr (idx : Z).

#[global] Instance EventPtr_eq_dec : EqDecision EventPtr.
Proof. solve_decision. Defined.

(** The constructor's loop [for (i = 0; i < N-1; ++i) next_[i] = i+1];
    [N-1] and [i+1] are [size_t] computations.  The guard is tested before
    every iteration; [fuel] bounds the number of iterations and the
    constructor supplies the trip count [N-1] (see [ctor_loop_fuel]). *)
Fixpoint ctor_loop (fuel : nat) (N i : Z) (nx : list Z) : res (list Z) :=
  match fuel with
  | O => Ok nx
  | S k =>
      if bool_decide (i < to_size_t (N - 1)) then
        nx' ← store nx i (to_size_t (i + 1));
        ctor_loop k N (to_size_t (i + 1)) nx'
      else Ok nx
  end.

(** [EventPool()], run over the indeterminate initial contents [raw] of
    [next_]; no [Event] lives in [storage_] yet and [head_ = 0]. *)
Definition EventPool_ctor_from (raw : list Z) (N : Z) : res EventPool :=
  nx ← ctor_loop (Z.to_nat (to_size_t (N - 1))) N 0 raw;
  nx' ← store nx (to_size_t (N - 1)) N;
  Ok {| storage_ := replicate (Z.to_nat N) None; next_ := nx'; head_ := 0 |}.

Definition EventPool_ctor (N : Z) : res EventPool :=
  EventPool_ctor_from (replicate (Z.to_nat N) 0) N.

(** [Event* acquire()] *)
Definition acquire (N : Z) (p : EventPool) : res (EventPool * EventPtr) :=
  if bool_decide (head_ p = N) then Ok (p, nullptr)
  else
    let idx := head_ p in
    nx ← load (next_ p) idx;
    st ← store (storage_ p) idx (Some Event_zero);
    Ok ({| storage_ := st; next_ := next_ p; head_ := nx |}, slot_ptr idx).

(** [void release(Event* e)]: the index is the pointer difference from the
    base of [storage_]; the (trivial) destructor ends the object's lifetime
    and the slot is pushed on the free list.  No liveness test is made. *)
Definition release (p : EventPool) (e : EventPtr) : res EventPool :=
  match e with
  | nullptr => UB
  | slot_ptr idx =>
      st ← store (storage_ p) idx None;
      nx ← store (next_ p) idx (head_ p);
      Ok {| storage_ := st; next_ := nx; head_ := idx |}
  end.

(** Access through a handle, as the caller does in [demo]: [*e] and
    [e->type = v]. *)
Definition deref (p : EventPool) (e : EventPtr) : res Event :=
  match e with
  | nullptr => UB
  | slot_ptr idx =>
      o ← load (storage_ p) idx;
      match o with
      | Some ev => Ok ev
      | None => UB
      end
  end.

Definition set_type (p : EventPool) (e : EventPtr) (v : Z) : res EventPool :=
  match e with
  | nullptr => UB
  | slot_ptr idx =>
      ev ← deref p e;
      st ← store (storage_ p) idx
             (Some {| ts := ts ev; type := to_uint8 v; payload := payload ev |});
      Ok {| storage_ := st; next_ := next_ p; head_ := head_ p |}
  end.

(** [n] calls of [acquire] in a row, collecting the returned pointers. *)
Fixpoint acquire_n (n : nat) (N : Z) (p : EventPool)
  : res (EventPool * list EventPtr) :=
  match n with
  | O => Ok (p, [])
  | S k =>
      '(p1, e) ← acquire N p;
      '(p2, es) ← acquire_n k N p1;
      Ok (p2, e :: es)
  end.

(** The free list of a pool: the slots met from [head_] along the [next_]
    links until the sentinel [N]; [None] when the sentinel is not reached
    within [fuel] links or a link leaves the array. *)
Fixpoint walk (fuel : nat) (N : Z) (nx : list Z) (h : Z) : option (list Z) :=
  if bool_decide (h = N) then Some []
  else
    match fuel with
    | O => None
    | S k =>
        match load nx h with
        | Ok h' => (h ::.) <$> walk k N nx h'
        | UB => None
        end
    end.

Definition free_list (fuel : nat) (N : Z) (p : EventPool) : option (list Z) :=
  walk fuel N (next_ p) (head_ p).

(** The same walk as a relation, without fuel. *)
Inductive chain (N : Z) (nx : list Z) : Z → list Z → Prop :=
| chain_end : chain N nx N []
| chain_link h h' l :
    h ≠ N → load nx h = Ok h' → chain N nx h' l → chain N nx h (h :: l).

(** Slot [i] holds a constructed [Event]. *)
Definition constructed (p : EventPool) (i : Z) : Prop :=
  ∃ ev, load (storage_ p) i = Ok (Some ev).

(** A pool together with the set of slot indices whose handles the callers
    currently hold.  The callers may acquire, release a handle they hold,
    and write the object behind a handle they hold. *)
Definition client : Type := EventPool * gset Z.

Inductive step (N : Z) : client → client → Prop :=
| step_acquire p live p' i :
    acquire N p = Ok (p', slot_ptr i) →
    step N (p, live) (p', {[i]} ∪ live)
| step_exhausted p live p' :
    acquire N p = Ok (p', nullptr) →
    step N (p, live) (p', live)
| step_release p live p' i :
    i ∈ live →
    release p (slot_ptr i) = Ok p' →
    step N (p, live) (p', live ∖ {[i]})
| step_set_type p live p' i v :
    i ∈ live →
    set_type p (slot_ptr i) v = Ok p' →
    step N (p, live) (p', live).

(** What the constructor establishes and every step keeps: the arrays have
    [N] entries, the links from [head_] run once through exactly the slots
    no caller holds, and the slots callers hold are the constructed ones. *)
Record pool_inv (N : Z) (c : client) : Prop := mkInv {
  inv_next_len : Z.of_nat (length (next_ c.1)) = N;
  inv_storage_len : Z.of_nat (length (storage_ c.1)) = N;
  inv_chain : ∃ fl, chain N (next_ c.1) (head_ c.1) fl ∧ NoDup fl ∧
                ∀ i, i ∈ fl ↔ 0 ≤ i < N ∧ i ∉ c.2;
  inv_live : ∀ i, i ∈ c.2 ↔ constructed c.1 i
}.

(** The states a freshly constructed pool of capacity [N] can get to. *)
Definition reachable (N : Z) (c : client) : Prop :=
  ∃ p0, EventPool_ctor N = Ok p0 ∧ rtc (step N) (p0, ∅) c.

(** The calls a caller makes on a pool: [acquire()], [release(e)] and the
    store [e->type = v], for a handle [e] to slot [i]. *)
Inductive op : Type :=
| Acquire
| Release (i : Z)
| SetType (i v : Z).

(** A sequence of calls, run in order on a pool and the set of handles the
    callers hold.  [None]: the sequence breaks the contract by using a
    handle that is not held at that point; [Some UB]: a call ran into
    undefined behaviour; [Some (Ok c)]: every call returned, ending in
    [c]. *)
Fixpoint run_ops (N : Z) (ops : list op) (c : client) : option (res client) :=
  match ops with
  | [] => Some (Ok c)
  | Acquire :: ops' =>
      match acquire N c.1 with
      | Ok (p', slot_ptr i) => run_ops N ops' (p', {[i]} ∪ c.2)
      | Ok (p', nullptr) => run_ops N ops' (p', c.2)
      | UB => Some UB
      end
  | Release i :: ops' =>
      if bool_decide (i ∈ c.2) then
        match release c.1 (slot_ptr i) with
        | Ok p' => run_ops N ops' (p', c.2 ∖ {[i]})
        | UB => Some UB
        end
      else None
  | SetType i v :: ops' =>
      if bool_decide (i ∈ c.2) then
        match set_type c.1 (slot_ptr i) v with
        | Ok p' => run_ops N ops' (p', c.2)
        | UB => Some UB
        end
      else None
  end.

(** The same, starting with the construction of the pool. *)
Definition run_fresh (N : Z) (ops : list op) : option (res client) :=
  match EventPool_ctor N with
  | Ok p0 => run_ops N ops (p0, ∅)
  | UB => Some UB
  end.

(** [N+1] acquisitions on a fresh pool: [N] distinct slots, then
    [nullptr], in arrays that keep their size. *)
Definition capacity_property (N : Z) : Prop :=
  ∃ p0 p',
    EventPool_ctor N = Ok p0 ∧
    acquire_n (Z.to_nat (N + 1)) N p0
      = Ok (p', (slot_ptr <$> seqZ 0 N) ++ [nullptr]) ∧
    Z.of_nat (length (storage_ p')) = N ∧
    Z.of_nat (length (next_ p')) = N.

(** A release of a slot that holds no live object does not complete
    normally. *)
Definition release_checked (p : EventPool) (i : Z) : Prop :=
  load (storage_ p) i = Ok None → ∀ p', release p (slot_ptr i) ≠ Ok p'.

End Pool.

(** ** The double buffer *)

Module DBuf.

(** [std::array<uint16_t,N> buf_[2]; int writeIdx_; int readIdx_;] *)
Record DoubleBuffer : Type := mkDB {
  buf_ : list (list Z);
  writeIdx_ : Z;
  readIdx_ : Z
}.

(** A [uint16_t*] into one of the two buffers: the buffer it points into
    and the element offset. *)
Record u16ptr : Type := mkPtr {
  blk : Z;
  off : Z
}.

(** Construction: [buf_[2]{}] value-initialises both arrays, [writeIdx_ = 0]
    and [readIdx_ = 1]. *)
Definition DoubleBuffer_ctor (N : Z) : DoubleBuffer :=
  {| buf_ := replicate 2 (replicate (Z.to_nat N) 0);
     writeIdx_ := 0;
     readIdx_ := 1 |}.

(** [buf_[writeIdx_].data()] and [buf_[readIdx_].data()] *)
Definition writeBuf (db : DoubleBuffer) : res u16ptr :=
  _ ← load (buf_ db) (writeIdx_ db);
  Ok {| blk := writeIdx_ db; off := 0 |}.

Definition readBuf (db : DoubleBuffer) : res u16ptr :=
  _ ← load (buf_ db) (readIdx_ db);
  Ok {| blk := readIdx_ db; off := 0 |}.

(** [readIdx_ ^= 1; writeIdx_ ^= 1;] *)
Definition commit (db : DoubleBuffer) : DoubleBuffer :=
  {| buf_ := buf_ db;
     writeIdx_ := Z.lxor (writeIdx_ db) 1;
     readIdx_ := Z.lxor (readIdx_ db) 1 |}.

(** [p[i]] as an rvalue and [p[i] = x], for a pointer into [buf_]. *)
Definition peek (db : DoubleBuffer) (p : u16ptr) (i : Z) : res Z :=
  b ← load (buf_ db) (blk p);
  load b (off p + i).

Definition poke (db : DoubleBuffer) (p : u16ptr) (i x : Z) : res DoubleBuffer :=
  b ← load (buf_ db) (blk p);
  b' ← store b (off p + i) (to_uint16 x);
  bs ← store (buf_ db) (blk p) b';
  Ok {| buf_ := bs; writeIdx_ := writeIdx_ db; readIdx_ := readIdx_ db |}.

(** What a client can do to a double buffer: commit, or store through a
    pointer into either buffer. *)
Inductive db_step : DoubleBuffer → DoubleBuffer → Prop :=
| step_commit db : db_step db (commit db)
| step_poke db p i x db' : poke db p i x = Ok db' → db_step db db'.

Definition db_reachable (N : Z) (db : DoubleBuffer) : Prop :=
  rtc db_step (DoubleBuffer_ctor N) db.

(** Shape of a double buffer of [N] elements: two buffers of that length,
    one in each role. *)
Record db_inv (N : Z) (db : DoubleBuffer) : Prop := mkDbInv {
  dbi_bufs : ∃ b0 b1, buf_ db = [b0; b1] ∧
               length b0 = Z.to_nat N ∧ length b1 = Z.to_nat N;
  dbi_roles : writeIdx_ db = 0 ∧ readIdx_ db = 1 ∨
              writeIdx_ db = 1 ∧ readIdx_ db = 0
}.

End DBuf.

(** ** The usage example [demo()] *)

(** [EventPool<16> pool; e = pool.acquire(); if (e) { e->type = 1;
    pool.release(e); }  DoubleBuffer<128> db; db.writeBuf()[0] = 123;
    db.commit(); v = db.readBuf()[0];] returning the final pool, the final
    double buffer and [v]. *)
Definition demo : res (Pool.EventPool * DBuf.DoubleBuffer * Z) :=
  pool ← Pool.EventPool_ctor 16;
  '(pool, e) ← Pool.acquire 16 pool;
  pool ← (if bool_decide (e ≠ Pool.nullptr)
          then pool' ← Pool.set_type pool e 1; Pool.release pool' e
          else Ok pool);
  let db := DBuf.DoubleBuffer_ctor 128 in
  w ← DBuf.writeBuf db;
  db ← DBuf.poke db w 0 123;
  let db := DBuf.commit db in
  r ← DBuf.readBuf db;
  v ← DBuf.peek db r 0;
  Ok (pool, db, v).

(** ** The strategy test, [tests/tests_strategy.cpp] *)

Module Strat.

(** [int] is 32 bits wide; a signed result outside its range is undefined
    behaviour. *)
Definition INT_MIN : Z := - 2 ^ 31.
Definition INT_MAX : Z := 2 ^ 31 - 1.

Definition int_result (z : Z) : res Z :=
  if bool_decide (INT_MIN ≤ z ≤ INT_MAX) then Ok z else UB.

(** [struct Strategy { virtual int apply(int v) = 0; }]: an object is its
    table of virtual functions. *)
Record Strategy : Type := mkStrategy {
  apply : Z → res Z
}.

(** [struct Inc : Strategy { int apply(int v) override { return v+1; } }] *)
Definition Inc : Strategy := {| apply := λ v, int_result (v + 1) |}.

(** [struct DoubleS : Strategy { int apply(int v) override { return v*2; } }] *)
Definition DoubleS : Strategy := {| apply := λ v, int_result (v * 2) |}.

(** [struct Ctx { Strategy* s; int run(int v) { return s->apply(v); } }] *)
Record Ctx : Type := mkCtx {
  s : Strategy
}.

Definition run (c : Ctx) (v : Z) : res Z := apply (s c) v.

(** How [main] ends: it returns a status after writing to [std::cout], or
    a failed [assert] aborts it. *)
Inductive exit : Type :=
| Returned (status : Z) (out : string)
| Aborted.

(** [int main()], with [assert] enabled. *)
Definition main : res exit :=
  let inc := Inc in
  let dbl := DoubleS in
  let c1 := {| s := inc |} in
  r1 ← run c1 5;
  if bool_decide (r1 = 6) then
    let c1 := {| s := dbl |} in
    r2 ← run c1 5;
    if bool_decide (r2 = 10) then
      Ok (Returned 0 ("strategy test ok" +:+ String "010"%char EmptyString))
    else Ok Aborted
  else Ok Aborted.

End Strat.

(** ** Array accesses *)

Section arrays.
Context {A : Type}.
Implicit Types (a : list A) (i j : Z) (x : A).

Lemma load_Ok a i x :
  load a i = Ok x ↔ 0 ≤ i ∧ a !! Z.to_nat i = Some x.
Proof.
  unfold load. case_bool_decide as Hi.
  - destruct (a !! Z.to_nat i) eqn:E; split.
    + intros [= ->]. done.
    + intros [_ [= ->]]. done.
    + done.
    + intros [_ [=]].
  - split; [done | intros [? _]; lia].
Qed.

Lemma load_in_range a i x :
  load a i = Ok x → 0 ≤ i < Z.of_nat (length a).
Proof.
  intros [Hi Hl]%load_Ok. apply lookup_lt_Some in Hl. lia.
Qed.

Lemma store_Ok a i x a' :
  store a i x = Ok a' ↔
  0 ≤ i < Z.of_nat (length a) ∧ a' = <[Z.to_nat i := x]> a.
Proof.
  unfold store. case_bool_decide as Hi; split.
  - intros [= <-]. done.
  - intros [_ ->]. done.
  - done.
  - intros [? _]. lia.
Qed.

Lemma store_in_range a i x :
  0 ≤ i < Z.of_nat (length a) → store a i x = Ok (<[Z.to_nat i := x]> a).
Proof. intros Hi. by apply store_Ok. Qed.

Lemma store_length a i x a' :
  store a i x = Ok a' → length a' = length a.
Proof. intros [_ ->]%store_Ok. apply length_insert. Qed.

Lemma load_store_eq a i x a' :
  store a i x = Ok a' → load a' i = Ok x.
Proof.
  intros [Hi ->]%store_Ok. apply load_Ok. split; [lia |].
  apply list_lookup_insert_eq. lia.
Qed.

Lemma load_store_ne a i j x a' :
  store a i x = Ok a' → i ≠ j → load a' j = load a j.
Proof.
  intros [Hi ->]%store_Ok Hne. unfold load.
  case_bool_decide; [| done].
  rewrite list_lookup_insert_ne; [done | lia].
Qed.
End arrays.

(** ** The event pool: construction *)

Module PoolFacts.
Import Pool.

Lemma to_size_t_small z : 0 ≤ z < SIZE_MOD → to_size_t z = z.
Proof. intros Hz. unfold to_size_t. by apply Z.mod_small. Qed.

Lemma to_size_t_range z : 0 ≤ to_size_t z < SIZE_MOD.
Proof. unfold to_size_t, SIZE_MOD. apply Z.mod_pos_bound. lia. Qed.

(** The trip count is all the fuel the loop can use: when it is spent the
    guard [i < N-1] is false, and more fuel changes nothing. *)
Lemma ctor_loop_fuel (N : Z) (k : nat) : ∀ (extra : nat) (i : Z) (nx : list Z),
  0 ≤ i → i + Z.of_nat k = to_size_t (N - 1) →
  ctor_loop (k + extra) N i nx = ctor_loop k N i nx.
Proof.
  pose proof (to_size_t_range (N - 1)) as HM.
  induction k as [| k IH]; intros extra i nx Hi Hk.
  - destruct extra as [| extra]; [done |]. cbn [Nat.add ctor_loop].
    by rewrite bool_decide_eq_false_2 by lia.
  - cbn [Nat.add ctor_loop].
    rewrite bool_decide_eq_true_2 by lia.
    destruct (store nx i (to_size_t (i + 1))) as [nx' |]; [| done].
    cbn [mbind res_bind]. rewrite (to_size_t_small (i + 1)) by lia.
    apply IH; lia.
Qed.

(** The loop writes [j+1] at every [j] of [[i, i+k)] and nothing else. *)
Lemma ctor_loop_spec (N : Z) (k : nat) : ∀ (i : Z) (nx : list Z),
  0 ≤ i → i + Z.of_nat k ≤ to_size_t (N - 1) →
  i + Z.of_nat k ≤ Z.of_nat (length nx) →
  Z.of_nat (length nx) < SIZE_MOD →
  ∃ nx', ctor_loop k N i nx = Ok nx' ∧ length nx' = length nx ∧
    ∀ j : nat,
      nx' !! j = if bool_decide (i ≤ Z.of_nat j < i + Z.of_nat k)
                 then Some (Z.of_nat j + 1) else nx !! j.
Proof.
  induction k as [| k IH]; intros i nx Hi HM Hlen Hmax.
  - exists nx. split_and!; [done.. |]. intros j.
    case_bool_decide; [lia | done].
  - cbn [ctor_loop]. rewrite bool_decide_eq_true_2 by lia.
    rewrite (to_size_t_small (i + 1)) by lia.
    rewrite store_in_range by lia. cbn [mbind res_bind].
    destruct (IH (i + 1) (<[Z.to_nat i := i + 1]> nx)) as (nx' & -> & Hl & Hj).
    { lia. } { lia. } { rewrite length_insert. lia. }
    { rewrite length_insert. lia. }
    exists nx'. split_and!; [done | by rewrite Hl, length_insert |].
    intros j. rewrite Hj.
    destruct (decide (Z.of_nat j = i)) as [<- | Hne].
    + rewrite Nat2Z.id.
      rewrite bool_decide_eq_false_2, bool_decide_eq_true_2 by lia.
      apply list_lookup_insert_eq. lia.
    + rewrite list_lookup_insert_ne by lia.
      repeat case_bool_decide; done || lia.
Qed.

(** For a capacity the array types admit, the constructor links slot [i]
    to [i+1], whatever [next_] held before. *)
Lemma EventPool_ctor_from_spec (raw : list Z) (N : Z) :
  0 < N < SIZE_MOD → Z.of_nat (length raw) = N →
  EventPool_ctor_from raw N
    = Ok {| storage_ := replicate (Z.to_nat N) None;
            next_ := seqZ 1 N;
            head_ := 0 |}.
Proof.
  intros HN Hraw. unfold EventPool_ctor_from.
  rewrite (to_size_t_small (N - 1)) by lia.
  destruct (ctor_loop_spec N (Z.to_nat (N - 1)) 0 raw) as (nx & -> & Hl & Hj);
    [rewrite ?(to_size_t_small (N - 1)) by lia; lia.. |].
  cbn. rewrite store_in_range by lia. cbn. do 2 f_equal.
  apply list_eq. intros j.
  destruct (decide (j = Z.to_nat (N - 1))) as [-> | Hne].
  - rewrite list_lookup_insert_eq by lia.
    symmetry. rewrite lookup_seqZ. split; lia.
  - rewrite list_lookup_insert_ne by lia. rewrite Hj.
    case_bool_decide.
    + symmetry. rewrite lookup_seqZ. lia.
    + rewrite (lookup_ge_None_2 raw) by lia.
      symmetry. apply lookup_ge_None_2. rewrite length_seqZ. lia.
Qed.

Lemma EventPool_ctor_spec (N : Z) :
  0 < N < SIZE_MOD →
  EventPool_ctor N
    = Ok {| storage_ := replicate (Z.to_nat N) None;
            next_ := seqZ 1 N;
            head_ := 0 |}.
Proof.
  intros HN. apply EventPool_ctor_from_spec; [done |].
  rewrite length_replicate. lia.
Qed.

(** With no slot to link, the first store of the loop is already outside
    [next_]. *)
Lemma EventPool_ctor_zero : EventPool_ctor 0 = UB.
Proof.
  unfold EventPool_ctor, EventPool_ctor_from.
  destruct (Z.to_nat (to_size_t (0 - 1))) eqn:E.
  - exfalso. unfold to_size_t, SIZE_MOD in E.
    change ((0 - 1) mod 2 ^ 64) with 18446744073709551615 in E. lia.
  - reflexivity.
Qed.

Lemma load_seqZ_link (N h : Z) :
  0 ≤ h < N → load (seqZ 1 N) h = Ok (h + 1).
Proof.
  intros Hh. apply load_Ok. split; [lia |].
  rewrite lookup_seqZ. lia.
Qed.

(** From a pool whose links are still those of the constructor and whose
    head is [h], the remaining [N - h] slots come out in order and the
    next call finds the sentinel. *)
Lemma acquire_n_fresh (N : Z) (k : nat) : ∀ (h : Z) (st : list (option Event)),
  0 ≤ h → h + Z.of_nat k = N → Z.of_nat (length st) = N →
  ∃ st',
    acquire_n (S k) N {| storage_ := st; next_ := seqZ 1 N; head_ := h |}
      = Ok ({| storage_ := st'; next_ := seqZ 1 N; head_ := N |},
            (slot_ptr <$> seqZ h (Z.of_nat k)) ++ [nullptr]) ∧
    Z.of_nat (length st') = N.
Proof.
  induction k as [| k IH]; intros h st Hh Hk Hst.
  - exists st. split; [| done].
    cbn [acquire_n]. unfold acquire. cbn [head_].
    rewrite bool_decide_eq_true_2 by lia. cbn.
    replace h with N by lia. done.
  - destruct (IH (h + 1) (<[Z.to_nat h := Some Event_zero]> st))
      as (st' & Hrun & Hst'); [lia | lia | by rewrite length_insert |].
    exists st'. split; [| done].
    change (acquire_n (S (S k)) N ?p)
      with ('(p1, e) ← acquire N p;
            '(p2, es) ← acquire_n (S k) N p1; Ok (p2, e :: es)).
    unfold acquire at 1. cbn [head_ next_ storage_].
    rewrite bool_decide_eq_false_2 by lia.
    rewrite load_seqZ_link by lia. cbn [mbind res_bind].
    rewrite store_in_range by lia. cbn [mbind res_bind].
    rewrite Hrun. cbn [mbind res_bind].
    rewrite (seqZ_cons h) by lia. cbn [fmap list_fmap app].
    replace (Z.pred (Z.of_nat (S k))) with (Z.of_nat k) by lia.
    replace (Z.succ h) with (h + 1) by lia. done.
Qed.

(** *** Chains of links *)

Lemma chain_walk (N : Z) (nx : list Z) (h : Z) (fl : list Z) :
  chain N nx h fl → ∀ fuel, (length fl ≤ fuel)%nat → walk fuel N nx h = Some fl.
Proof.
  induction 1 as [| h h' l Hne Hld _ IH]; intros fuel Hfuel.
  - destruct fuel; cbn; by rewrite bool_decide_eq_true_2.
  - destruct fuel as [| fuel]; cbn in Hfuel; [lia |].
    cbn [walk]. rewrite bool_decide_eq_false_2 by done.
    rewrite Hld, IH by lia. done.
Qed.

(** A store outside the chain leaves the chain in place. *)
Lemma chain_store_notin (N : Z) (nx nx' : list Z) (h i v : Z) (fl : list Z) :
  chain N nx h fl → i ∉ fl → store nx i v = Ok nx' → chain N nx' h fl.
Proof.
  intros Hch Hi Hst. induction Hch as [| h h' l Hne Hld _ IH].
  - constructor.
  - apply not_elem_of_cons in Hi as [Hih Hil].
    econstructor; [done | | by apply IH].
    by rewrite (load_store_ne _ _ _ _ _ Hst).
Qed.

Lemma chain_seqZ (N : Z) (k : nat) : ∀ h : Z,
  0 ≤ h → h + Z.of_nat k = N → chain N (seqZ 1 N) h (seqZ h (Z.of_nat k)).
Proof.
  induction k as [| k IH]; intros h Hh Hk.
  - replace h with N by lia. constructor.
  - rewrite (seqZ_cons h) by lia.
    replace (Z.pred (Z.of_nat (S k))) with (Z.of_nat k) by lia.
    apply chain_link with (h' := Z.succ h); [lia | |].
    + rewrite load_seqZ_link by lia. f_equal; lia.
    + apply IH; lia.
Qed.

Lemma NoDup_range_length (N : Z) (fl : list Z) :
  0 ≤ N → NoDup fl → (∀ i, i ∈ fl → 0 ≤ i < N) → Z.of_nat (length fl) ≤ N.
Proof.
  intros HN Hnd Hr.
  assert (Hsub : fl ⊆+ seqZ 0 N).
  { apply NoDup_submseteq; [done |]. intros i Hi%Hr.
    apply elem_of_seqZ. lia. }
  apply submseteq_length in Hsub. rewrite length_seqZ in Hsub. lia.
Qed.

(** *** The invariant *)

Lemma acquire_inv (N : Z) (p p' : EventPool) (e : EventPtr) :
  acquire N p = Ok (p', e) →
  head_ p = N ∧ p' = p ∧ e = nullptr ∨
  head_ p ≠ N ∧ e = slot_ptr (head_ p) ∧
  ∃ nx st, load (next_ p) (head_ p) = Ok nx ∧
           store (storage_ p) (head_ p) (Some Event_zero) = Ok st ∧
           p' = {| storage_ := st; next_ := next_ p; head_ := nx |}.
Proof.
  unfold acquire. case_bool_decide as Hh; intros H.
  - left. by injection H as <- <-.
  - right. cbn zeta in H. res_inv H. injection H as <- <-. eauto 10.
Qed.

Lemma release_inv (p p' : EventPool) (i : Z) :
  release p (slot_ptr i) = Ok p' →
  ∃ st nx, store (storage_ p) i None = Ok st ∧
           store (next_ p) i (head_ p) = Ok nx ∧
           p' = {| storage_ := st; next_ := nx; head_ := i |}.
Proof. unfold release. intros H. res_inv H. injection H as <-. eauto. Qed.

Lemma set_type_inv (p p' : EventPool) (i v : Z) :
  set_type p (slot_ptr i) v = Ok p' →
  ∃ ev st, load (storage_ p) i = Ok (Some ev) ∧
           store (storage_ p) i
             (Some {| ts := ts ev; type := to_uint8 v; payload := payload ev |})
             = Ok st ∧
           p' = {| storage_ := st; next_ := next_ p; head_ := head_ p |}.
Proof.
  unfold set_type, deref. intros H. res_inv H.
  destruct (load (storage_ p) i) as [[ev |] |] eqn:El; try discriminate.
  injection E as ->. injection H as <-. eauto.
Qed.

Lemma pool_inv_init (N : Z) (p0 : EventPool) :
  0 < N < SIZE_MOD → EventPool_ctor N = Ok p0 → pool_inv N (p0, ∅).
Proof.
  intros HN Hc. rewrite EventPool_ctor_spec in Hc by done.
  injection Hc as <-. split; cbn [fst snd next_ storage_ head_].
  - rewrite length_seqZ. lia.
  - rewrite length_replicate. lia.
  - exists (seqZ 0 N). split_and!.
    + rewrite <- (Z2Nat.id N) at 3 by lia. apply chain_seqZ; lia.
    + apply NoDup_seqZ.
    + intros i. rewrite elem_of_seqZ. set_solver by lia.
  - intros i. split; [set_solver |].
    intros [ev [Hi Hl]%load_Ok]. apply lookup_replicate in Hl as [? _]. done.
Qed.

Lemma pool_inv_step (N : Z) (c c' : client) :
  pool_inv N c → step N c c' → pool_inv N c'.
Proof.
  intros [Hnl Hsl (fl & Hch & Hnd & Hfl) Hlive] Hstep.
  destruct Hstep as [p live p' i Ha | p live p' Ha | p live p' i Hi Hr
                    | p live p' i v Hi Hs]; cbn [fst snd] in *.
  - (* acquire hands out the head slot *)
    apply acquire_inv in Ha
      as [(_ & _ & [=]) | (Hh & [= ->] & nx & st & Hld & Hst & ->)].
    inversion Hch as [Hend | h h' l _ Hld' Hch' Hhd];
      [congruence | subst fl]. rewrite Hld in Hld'. injection Hld' as <-.
    apply NoDup_cons in Hnd as [Hnotin Hnd].
    split; cbn [fst snd next_ storage_ head_].
    + done.
    + by rewrite (store_length _ _ _ _ Hst).
    + exists l. split_and!; [done.. |]. intros j.
      specialize (Hfl j). rewrite elem_of_cons in Hfl.
      split.
      * intros Hj. destruct (decide (j = head_ p)) as [-> | Hne]; [done |].
        set_solver.
      * intros [Hr Hj]. set_solver.
    + intros j. unfold constructed. cbn [storage_].
      destruct (decide (j = head_ p)) as [-> | Hne].
      * rewrite (load_store_eq _ _ _ _ Hst). set_solver.
      * rewrite (load_store_ne _ _ _ _ _ Hst) by done.
        rewrite <- (Hlive j). set_solver.
  - (* the exhausted pool is left as it was *)
    apply acquire_inv in Ha as [(_ & -> & _) | (_ & [=] & _)].
    by split; [| | exists fl |].
  - (* release pushes the slot in front of the old chain *)
    apply release_inv in Hr as (st & nx & Hst & Hnx & ->).
    pose proof Hnx as [Hir _]%store_Ok.
    assert (Hnotin : i ∉ fl) by (intros Hin%Hfl; tauto).
    split; cbn [fst snd next_ storage_ head_].
    + by rewrite (store_length _ _ _ _ Hnx).
    + by rewrite (store_length _ _ _ _ Hst).
    + exists (i :: fl). split_and!.
      * apply chain_link with (h' := head_ p); [lia | |].
        -- by apply (load_store_eq _ _ _ _ Hnx).
        -- by apply (chain_store_notin _ _ _ _ _ _ _ Hch Hnotin Hnx).
      * by apply NoDup_cons.
      * intros j. rewrite elem_of_cons, (Hfl j).
        destruct (decide (j = i)) as [-> | Hne]; [| set_solver].
        split; [intros _; split; [lia | set_solver] | by left].
    + intros j. unfold constructed. cbn [storage_].
      destruct (decide (j = i)) as [-> | Hne].
      * rewrite (load_store_eq _ _ _ _ Hst).
        split; [set_solver | by intros [ev [=]]].
      * rewrite (load_store_ne _ _ _ _ _ Hst) by done.
        rewrite <- (Hlive j). set_solver.
  - (* a write through a held handle touches that object only *)
    apply set_type_inv in Hs as (ev & st & Hld & Hst & ->).
    split; cbn [fst snd next_ storage_ head_].
    + done.
    + by rewrite (store_length _ _ _ _ Hst).
    + by exists fl.
    + intros j. unfold constructed. cbn [storage_].
      destruct (decide (j = i)) as [-> | Hne].
      * rewrite (load_store_eq _ _ _ _ Hst). split; [eauto | done].
      * rewrite (load_store_ne _ _ _ _ _ Hst) by done. apply Hlive.
Qed.

Lemma pool_inv_reachable (N : Z) (c : client) :
  0 < N < SIZE_MOD → reachable N c → pool_inv N c.
Proof.
  intros HN (p0 & Hc & Hrtc).
  pose proof (pool_inv_init N p0 HN Hc) as Hinit.
  induction Hrtc as [| c1 c2 c3 Hstep _ IH]; [done |].
  apply IH. by apply (pool_inv_step N c1).
Qed.

(** In a state the pool can get to, no call the callers are allowed to make
    runs into undefined behaviour. *)
Lemma acquire_defined (N : Z) (p : EventPool) (live : gset Z) :
  0 < N < SIZE_MOD → reachable N (p, live) →
  ∃ p' e, acquire N p = Ok (p', e).
Proof.
  intros HN [Hnl Hsl (fl & Hch & _ & Hfl) _]%pool_inv_reachable; [| done].
  cbn [fst snd] in *. unfold acquire. case_bool_decide as Hh; [eauto |].
  inversion Hch as [| h h' l _ Hld _ Hhd]; [congruence | subst fl].
  assert (0 ≤ head_ p < N) as Hr by (apply Hfl; left).
  cbn zeta. rewrite Hld. cbn. rewrite store_in_range by lia. cbn. eauto.
Qed.

Lemma release_defined (N : Z) (p : EventPool) (live : gset Z) (i : Z) :
  0 < N < SIZE_MOD → reachable N (p, live) → i ∈ live →
  ∃ p', release p (slot_ptr i) = Ok p'.
Proof.
  intros HN [Hnl Hsl _ Hlive]%pool_inv_reachable Hi; [| done].
  cbn [fst snd] in *. apply Hlive in Hi as [ev Hld%load_in_range].
  unfold release. rewrite !store_in_range by lia. cbn. eauto.
Qed.

(** A link of a slot to itself is never left. *)
Lemma walk_self_loop (N : Z) (nx : list Z) (i : Z) :
  i ≠ N → load nx i = Ok i → ∀ fuel, walk fuel N nx i = None.
Proof.
  intros Hne Hld fuel. induction fuel as [| fuel IH]; cbn [walk].
  - by rewrite bool_decide_eq_false_2.
  - rewrite bool_decide_eq_false_2 by done. by rewrite Hld, IH.
Qed.

(** *** Capacity *)

(** C1, as stated, fails for the capacity 0: [N - 1] wraps around to
    [2^64 - 1], the constructor's first store [next_[0] = 1] is outside the
    empty array, and no pool is constructed on which to call [acquire]. *)
Lemma acquire_capacity_zero : ¬ capacity_property 0.
Proof.
  intros (p0 & p' & Hc & _). rewrite EventPool_ctor_zero in Hc. discriminate.
Qed.

(** C1 (amended): for every capacity [N ≥ 1] of type [size_t], [N + 1]
    calls of [acquire] on a freshly constructed pool return the [N] slots
    [0, ..., N-1] and then [nullptr]; every call returns, and the arrays
    still have [N] entries (nothing is allocated). *)
Theorem acquire_capacity (N : Z) : 0 < N < SIZE_MOD → capacity_property N.
Proof.
  intros HN. unfold capacity_property.
  rewrite EventPool_ctor_spec by done.
  destruct (acquire_n_fresh N (Z.to_nat N) 0 (replicate (Z.to_nat N) None))
    as (st' & Hrun & Hst'); [lia | lia | rewrite length_replicate; lia |].
  eexists _, _. split; [done |].
  replace (Z.to_nat (N + 1)) with (S (Z.to_nat N)) by lia.
  rewrite Hrun, Z2Nat.id by lia. split_and!; [done.. |].
  cbn [next_]. rewrite length_seqZ. lia.
Qed.

Lemma acquire_capacity_witness :
  0 < 16 < SIZE_MOD ∧ capacity_property 16.
Proof.
  assert (H16 : 0 < 16 < SIZE_MOD) by (unfold SIZE_MOD; lia).
  split; [exact H16 | exact (acquire_capacity 16 H16)].
Defined.

(** *** Free-list integrity *)

(** Under the invariant every call the contract allows returns. *)
Lemma acquire_returns (N : Z) (p : EventPool) (live : gset Z) :
  pool_inv N (p, live) → ∃ p' e, acquire N p = Ok (p', e).
Proof.
  intros [Hnl Hsl (fl & Hch & _ & Hfl) _]. cbn [fst snd] in *.
  unfold acquire. case_bool_decide as Hh; [eauto |].
  inversion Hch as [| h h' l _ Hld _ Hhd]; [congruence | subst fl].
  assert (0 ≤ head_ p < N) as Hr by (apply Hfl; left).
  cbn zeta. rewrite Hld. cbn [mbind res_bind].
  rewrite store_in_range by lia. cbn [mbind res_bind]. eauto.
Qed.

Lemma release_returns (N : Z) (p : EventPool) (live : gset Z) (i : Z) :
  pool_inv N (p, live) → i ∈ live → ∃ p', release p (slot_ptr i) = Ok p'.
Proof.
  intros [Hnl Hsl _ Hlive] Hi. cbn [fst snd] in *.
  apply Hlive in Hi as [ev Hld%load_in_range].
  unfold release. rewrite !store_in_range by lia. cbn. eauto.
Qed.

Lemma set_type_returns (N : Z) (p : EventPool) (live : gset Z) (i v : Z) :
  pool_inv N (p, live) → i ∈ live → ∃ p', set_type p (slot_ptr i) v = Ok p'.
Proof.
  intros [Hnl Hsl _ Hlive] Hi. cbn [fst snd] in *.
  apply Hlive in Hi as [ev Hld]. pose proof (load_in_range _ _ _ Hld) as Hr.
  unfold set_type, deref. rewrite Hld. cbn [mbind res_bind].
  rewrite store_in_range by lia. cbn [mbind res_bind]. eauto.
Qed.

(** A sequence of calls that keeps to the contract runs to its end, through
    steps of the callers' relation. *)
Lemma run_ops_returns (N : Z) (ops : list op) : ∀ c : client,
  pool_inv N c →
  run_ops N ops c = None ∨
  ∃ c', run_ops N ops c = Some (Ok c') ∧ rtc (step N) c c'.
Proof.
  induction ops as [| o ops IH]; intros [p live] Hinv.
  { right. exists (p, live). split; [done | apply rtc_refl]. }
  destruct o as [| i | i v]; cbn [run_ops fst snd].
  - destruct (acquire_returns N p live Hinv) as (p' & e & Ha). rewrite Ha.
    destruct e as [| i].
    + assert (Hs : step N (p, live) (p', live)) by by apply step_exhausted.
      destruct (IH (p', live) (pool_inv_step N _ _ Hinv Hs))
        as [-> | (c' & -> & Hrtc)]; [by left | right].
      exists c'. split; [done | by eapply rtc_l].
    + assert (Hs : step N (p, live) (p', {[i]} ∪ live))
        by by apply step_acquire.
      destruct (IH (p', {[i]} ∪ live) (pool_inv_step N _ _ Hinv Hs))
        as [-> | (c' & -> & Hrtc)]; [by left | right].
      exists c'. split; [done | by eapply rtc_l].
  - case_bool_decide as Hi; [| by left].
    destruct (release_returns N p live i Hinv Hi) as (p' & Hr). rewrite Hr.
    assert (Hs : step N (p, live) (p', live ∖ {[i]}))
      by by apply step_release.
    destruct (IH (p', live ∖ {[i]}) (pool_inv_step N _ _ Hinv Hs))
      as [-> | (c' & -> & Hrtc)]; [by left | right].
    exists c'. split; [done | by eapply rtc_l].
  - case_bool_decide as Hi; [| by left].
    destruct (set_type_returns N p live i v Hinv Hi) as (p' & Hr). rewrite Hr.
    assert (Hs : step N (p, live) (p', live))
      by by eapply step_set_type.
    destruct (IH (p', live) (pool_inv_step N _ _ Hinv Hs))
      as [-> | (c' & -> & Hrtc)]; [by left | right].
    exists c'. split; [done | by eapply rtc_l].
Qed.

Lemma run_fresh_returns (N : Z) (ops : list op) :
  0 < N < SIZE_MOD → run_fresh N ops ≠ None →
  ∃ c, run_fresh N ops = Some (Ok c) ∧ reachable N c.
Proof.
  intros HN Hok. unfold run_fresh in *.
  pose proof (EventPool_ctor_spec N HN) as Hc. rewrite Hc in *.
  destruct (run_ops_returns N ops (_, ∅) (pool_inv_init N _ HN Hc))
    as [Hnone | (c & Hrun & Hrtc)]; [done |].
  exists c. split; [done |]. eexists. split; [exact Hc | exact Hrtc].
Qed.

(** C2: every sequence of [acquire], [release] and [e->type = v] calls on
    a freshly constructed pool of capacity [N] in which every handle used
    is held at that point runs to its end, every call returning; in the
    state it ends in (hence after each of its calls) the walk from [head_]
    along [next_] ends at the sentinel [N] after visiting, once each,
    exactly the slots of [[0, N)] whose handle no caller holds, and the
    held slots are the constructed ones. *)
Theorem free_list_integrity (N : Z) (ops : list op) :
  0 < N < SIZE_MOD → run_fresh N ops ≠ None →
  ∃ p live fl,
    run_fresh N ops = Some (Ok (p, live)) ∧
    free_list (Z.to_nat N) N p = Some fl ∧
    NoDup fl ∧
    (∀ i, i ∈ fl ↔ 0 ≤ i < N ∧ i ∉ live) ∧
    (∀ i, i ∈ live → 0 ≤ i < N ∧ i ∉ fl) ∧
    (∀ i, i ∈ live ↔ constructed p i).
Proof.
  intros HN Hok.
  destruct (run_fresh_returns N ops HN Hok) as ([p live] & Hrun & Hreach).
  pose proof (pool_inv_reachable N _ HN Hreach)
    as [Hnl Hsl (fl & Hch & Hnd & Hfl) Hlive].
  cbn [fst snd] in *. exists p, live, fl.
  split_and!; [done | | done | done | | done].
  - apply chain_walk; [done |].
    assert (Z.of_nat (length fl) ≤ N) as Hlen; [| lia].
    apply NoDup_range_length; [lia | done |]. intros i Hi%Hfl. tauto.
  - intros i Hi. split.
    + apply Hlive in Hi as [ev Hld%load_in_range]. lia.
    + intros Hin%Hfl. tauto.
Qed.

Lemma free_list_integrity_witness :
  run_fresh 3 [Acquire; Acquire; SetType 1 7; Release 0; Acquire; Acquire;
               Acquire; Release 1] ≠ None ∧
  ∃ p live fl,
    run_fresh 3 [Acquire; Acquire; SetType 1 7; Release 0; Acquire; Acquire;
                 Acquire; Release 1] = Some (Ok (p, live)) ∧
    free_list 3 3 p = Some fl ∧
    NoDup fl ∧
    (∀ i, i ∈ fl ↔ 0 ≤ i < 3 ∧ i ∉ live) ∧
    (∀ i, i ∈ live → 0 ≤ i < 3 ∧ i ∉ fl) ∧
    (∀ i, i ∈ live ↔ constructed p i).
Proof.
  assert (Hok : run_fresh 3 [Acquire; Acquire; SetType 1 7; Release 0;
                             Acquire; Acquire; Acquire; Release 1] ≠ None)
    by (vm_compute; discriminate).
  split; [exact Hok |].
  apply (free_list_integrity 3); [unfold SIZE_MOD; lia | exact Hok].
Defined.

(** *** Reuse of a released slot *)

(** C7: in a pool of capacity [N] whose head is a slot (the free list is
    not empty), [acquire] returns the head slot [a]; after [a->type = 1]
    and [release(a)], the next [acquire] returns the same slot [a], and
    the object there is the value-initialised [Event{}], whose [type] is 0
    and not 1. *)
Theorem pool_reuse (N : Z) (p : EventPool) :
  0 ≤ head_ p < N →
  Z.of_nat (length (next_ p)) = N →
  Z.of_nat (length (storage_ p)) = N →
  ∃ a p1 p2 p3 p4,
    acquire N p = Ok (p1, slot_ptr a) ∧
    set_type p1 (slot_ptr a) 1 = Ok p2 ∧
    type <$> deref p2 (slot_ptr a) = Ok 1 ∧
    release p2 (slot_ptr a) = Ok p3 ∧
    acquire N p3 = Ok (p4, slot_ptr a) ∧
    deref p4 (slot_ptr a) = Ok Event_zero ∧
    type Event_zero = 0.
Proof.
  intros Hh Hnl Hsl.
  assert (Hld : ∃ h', load (next_ p) (head_ p) = Ok h').
  { destruct (lookup_lt_is_Some_2 (next_ p) (Z.to_nat (head_ p))) as [h' Hh'];
      [lia |]. exists h'. apply load_Ok. split; [lia | done]. }
  destruct Hld as [h' Hld].
  assert (Hget : ∀ (x : option Event) (l : list (option Event)),
             Z.of_nat (length l) = N →
             load (<[Z.to_nat (head_ p) := x]> l) (head_ p) = Ok x).
  { intros x l Hl. apply load_Ok. split; [lia |].
    apply list_lookup_insert_eq. lia. }
  exists (head_ p). eexists _, _, _, _. split_and!.
  - unfold acquire. rewrite bool_decide_eq_false_2 by lia. cbn zeta.
    rewrite Hld. cbn [mbind res_bind fmap res_fmap next_ storage_ head_]. rewrite store_in_range by (rewrite ?length_insert; lia). done.
  - unfold set_type, deref. cbn [storage_ next_ head_].
    rewrite Hget by done. cbn [mbind res_bind fmap res_fmap next_ storage_ head_].
    rewrite store_in_range by (rewrite ?length_insert; lia). done.
  - unfold deref. cbn [storage_]. rewrite Hget by (rewrite ?length_insert; lia). done.
  - unfold release. cbn [storage_ next_ head_].
    rewrite store_in_range by (rewrite ?length_insert; lia). cbn [mbind res_bind fmap res_fmap next_ storage_ head_].
    rewrite store_in_range by (rewrite ?length_insert; lia). done.
  - unfold acquire. cbn [storage_ next_ head_].
    rewrite bool_decide_eq_false_2 by lia. cbn zeta.
    erewrite load_store_eq by (apply store_in_range; lia). cbn [mbind res_bind fmap res_fmap next_ storage_ head_].
    rewrite store_in_range by (rewrite ?length_insert; lia). done.
  - unfold deref. cbn [storage_]. rewrite Hget by (rewrite ?length_insert; lia). done.
  - done.
Qed.

Lemma pool_reuse_witness :
  ∃ p0, EventPool_ctor 16 = Ok p0 ∧
  ∃ a p1 p2 p3 p4,
    acquire 16 p0 = Ok (p1, slot_ptr a) ∧
    set_type p1 (slot_ptr a) 1 = Ok p2 ∧
    type <$> deref p2 (slot_ptr a) = Ok 1 ∧
    release p2 (slot_ptr a) = Ok p3 ∧
    acquire 16 p3 = Ok (p4, slot_ptr a) ∧
    deref p4 (slot_ptr a) = Ok Event_zero ∧
    type Event_zero = 0.
Proof.
  eexists. split; [reflexivity |].
  apply (pool_reuse 16); [cbn; lia | vm_compute; reflexivity..].
Defined.

(** *** Releases outside the contract *)

(** C8, as stated, fails: after [acquire] and [release] on a fresh pool of
    two slots, a second [release] of the same handle is not caught: it
    completes normally and links slot 0 to itself, so that the walk from
    [head_] never meets the sentinel again. *)
Lemma double_release_undetected :
  ∃ p0 p1 p2 p3,
    EventPool_ctor 2 = Ok p0 ∧
    acquire 2 p0 = Ok (p1, slot_ptr 0) ∧
    release p1 (slot_ptr 0) = Ok p2 ∧
    ¬ release_checked p2 0 ∧
    release p2 (slot_ptr 0) = Ok p3 ∧
    ∀ fuel, free_list fuel 2 p3 = None.
Proof.
  eexists _, _, _, _. split_and!; [reflexivity.. | | reflexivity |].
  - intros Hchk. by eapply Hchk.
  - intros fuel. by apply walk_self_loop.
Qed.

(** C8 (amended): [release] makes no liveness test.  For every slot index
    [i] inside a pool of capacity [N], whether slot [i] is live or not,
    [release] completes normally, leaving slot [i] without an object,
    [next_[i]] equal to the old head and [head_ = i]; a second release of
    the same handle completes normally too and leaves [next_[i] = i] with
    [head_ = i], so that the free list no longer ends at the sentinel. *)
Theorem release_unchecked (N : Z) (p : EventPool) (i : Z) :
  0 ≤ i < N →
  Z.of_nat (length (next_ p)) = N →
  Z.of_nat (length (storage_ p)) = N →
  ∃ p1 p2,
    release p (slot_ptr i) = Ok p1 ∧
    p1 = {| storage_ := <[Z.to_nat i := None]> (storage_ p);
            next_ := <[Z.to_nat i := head_ p]> (next_ p);
            head_ := i |} ∧
    release p1 (slot_ptr i) = Ok p2 ∧
    head_ p2 = i ∧
    load (next_ p2) i = Ok i ∧
    ∀ fuel, free_list fuel N p2 = None.
Proof.
  intros Hi Hnl Hsl.
  exists {| storage_ := <[Z.to_nat i := None]> (storage_ p);
            next_ := <[Z.to_nat i := head_ p]> (next_ p);
            head_ := i |}.
  exists {| storage_ := <[Z.to_nat i := None]> (<[Z.to_nat i := None]> (storage_ p));
            next_ := <[Z.to_nat i := i]> (<[Z.to_nat i := head_ p]> (next_ p));
            head_ := i |}.
  assert (H1 : release p (slot_ptr i)
               = Ok {| storage_ := <[Z.to_nat i := None]> (storage_ p);
                       next_ := <[Z.to_nat i := head_ p]> (next_ p);
                       head_ := i |}).
  { unfold release. rewrite !store_in_range by lia. done. }
  assert (H2 : load (<[Z.to_nat i := i]> (<[Z.to_nat i := head_ p]> (next_ p))) i
               = Ok i).
  { apply load_Ok. split; [lia |]. apply list_lookup_insert_eq.
    rewrite length_insert. lia. }
  split_and!; [exact H1 | reflexivity | | reflexivity | exact H2 |].
  - unfold release. cbn [storage_ next_ head_].
    rewrite store_in_range by (rewrite ?length_insert; lia).
    cbn [mbind res_bind].
    rewrite store_in_range by (rewrite ?length_insert; lia). done.
  - intros fuel. unfold free_list. cbn [next_ head_].
    apply walk_self_loop; [lia | exact H2].
Qed.

Lemma release_unchecked_witness :
  ∃ p1 p2,
    release {| storage_ := [None; None]; next_ := [1; 2]; head_ := 0 |}
            (slot_ptr 1) = Ok p1 ∧
    p1 = {| storage_ := [None; None]; next_ := [1; 0]; head_ := 1 |} ∧
    release p1 (slot_ptr 1) = Ok p2 ∧
    head_ p2 = 1 ∧
    load (next_ p2) 1 = Ok 1 ∧
    ∀ fuel, free_list fuel 2 p2 = None.
Proof.
  apply (release_unchecked 2
           {| storage_ := [None; None]; next_ := [1; 2]; head_ := 0 |} 1);
    cbn; lia.
Defined.

(** *** Exhaustion *)

(** C9: a call of [acquire] that returns [nullptr] returns the pool it was
    given: [head_], every link of [next_] and every slot of [storage_] are
    the same as before the call. *)
Theorem acquire_exhausted_frame (N : Z) (p p' : EventPool) :
  acquire N p = Ok (p', nullptr) → p' = p.
Proof.
  intros [(_ & -> & _) | (_ & [=] & _)]%acquire_inv. done.
Qed.

Lemma acquire_exhausted_frame_witness :
  acquire 1 {| storage_ := [Some Event_zero]; next_ := [1]; head_ := 1 |}
    = Ok ({| storage_ := [Some Event_zero]; next_ := [1]; head_ := 1 |},
          nullptr) ∧
  {| storage_ := [Some Event_zero]; next_ := [1]; head_ := 1 |}
    = {| storage_ := [Some Event_zero]; next_ := [1]; head_ := 1 |}.
Proof.
  split; [reflexivity |].
  apply (acquire_exhausted_frame 1). reflexivity.
Defined.

End PoolFacts.

(** ** The double buffer *)

Module DBufFacts.
Import DBuf.

Lemma db_inv_init (N : Z) : db_inv N (DoubleBuffer_ctor N).
Proof.
  split; cbn.
  - eexists _, _. split; [done |]. by rewrite length_replicate.
  - by left.
Qed.

Lemma poke_inv (db db' : DoubleBuffer) (p : u16ptr) (i x : Z) :
  poke db p i x = Ok db' →
  ∃ b b' bs, load (buf_ db) (blk p) = Ok b ∧
             store b (off p + i) (to_uint16 x) = Ok b' ∧
             store (buf_ db) (blk p) b' = Ok bs ∧
             db' = {| buf_ := bs; writeIdx_ := writeIdx_ db;
                      readIdx_ := readIdx_ db |}.
Proof.
  unfold poke. intros H.
  destruct (load (buf_ db) (blk p)) as [b |] eqn:E1; [| done].
  cbn [mbind res_bind] in H.
  destruct (store b (off p + i) (to_uint16 x)) as [b' |] eqn:E2; [| done].
  cbn [mbind res_bind] in H.
  destruct (store (buf_ db) (blk p) b') as [bs |] eqn:E3; [| done].
  injection H as <-. eauto 10.
Qed.

Lemma db_inv_step (N : Z) (db db' : DoubleBuffer) :
  db_inv N db → db_step db db' → db_inv N db'.
Proof.
  intros [(b0 & b1 & Hb & Hl0 & Hl1) Hroles] Hstep.
  destruct Hstep as [db | db p i x db' Hp].
  - split; cbn [commit buf_ writeIdx_ readIdx_]; [eauto |].
    destruct Hroles as [[-> ->] | [-> ->]]; [right | left]; done.
  - apply poke_inv in Hp as (b & b' & bs & Hld & Hst & Hbs & ->).
    split; cbn [buf_ writeIdx_ readIdx_]; [| done].
    rewrite Hb in Hld, Hbs.
    apply store_length in Hst.
    apply store_Ok in Hbs as [Hr ->]. apply load_Ok in Hld as [_ Hld].
    cbn [length] in Hr.
    destruct (Z.to_nat (blk p)) as [| [| k]] eqn:Ek; [| | lia].
    + injection Hld as <-. eexists _, _. split; [done |]. split; congruence.
    + injection Hld as <-. eexists _, _. split; [done |]. split; congruence.
Qed.

Lemma db_inv_reachable (N : Z) (db : DoubleBuffer) :
  db_reachable N db → db_inv N db.
Proof.
  unfold db_reachable. intros Hrtc.
  pose proof (db_inv_init N) as Hinit.
  induction Hrtc as [| d1 d2 d3 Hstep _ IH]; [done |].
  apply IH. by apply (db_inv_step N d1).
Qed.

Lemma to_uint16_small (x : Z) : 0 ≤ x < 2 ^ 16 → to_uint16 x = x.
Proof. intros Hx. unfold to_uint16. by apply Z.mod_small. Qed.

Lemma lxor_1_twice (z : Z) : Z.lxor (Z.lxor z 1) 1 = z.
Proof. by rewrite Z.lxor_assoc, Z.lxor_nilpotent, Z.lxor_0_r. Qed.

(** *** Visibility *)

(** C3: in every state of a double buffer of [N] elements, for every index
    [i] of [[0, N)] and every [uint16_t] value [x], the store
    [writeBuf()[i] = x] followed by [commit()] makes [readBuf()[i]] equal
    to [x]. *)
Theorem write_commit_read (N : Z) (db : DoubleBuffer) (i x : Z) :
  db_reachable N db → 0 ≤ i < N → 0 ≤ x < 2 ^ 16 →
  ∃ w db1 r,
    writeBuf db = Ok w ∧
    poke db w i x = Ok db1 ∧
    readBuf (commit db1) = Ok r ∧
    peek (commit db1) r i = Ok x.
Proof.
  intros [(b0 & b1 & Hb & Hl0 & Hl1) Hroles]%db_inv_reachable Hi Hx.
  destruct db as [bufs wi ri]. cbn [buf_ writeIdx_ readIdx_] in *. subst bufs.
  assert (Hput : ∀ b : list Z, length b = Z.to_nat N →
            store b (0 + i) (to_uint16 x) = Ok (<[Z.to_nat i := x]> b)).
  { intros b Hl. rewrite to_uint16_small by done.
    rewrite store_in_range by lia. done. }
  assert (Hget : ∀ b : list Z, length b = Z.to_nat N →
            load (<[Z.to_nat i := x]> b) (0 + i) = Ok x).
  { intros b Hl. apply load_Ok. split; [lia |].
    apply list_lookup_insert_eq. lia. }
  destruct Hroles as [[-> ->] | [-> ->]].
  - exists {| blk := 0; off := 0 |},
      {| buf_ := [<[Z.to_nat i := x]> b0; b1]; writeIdx_ := 0; readIdx_ := 1 |},
      {| blk := 0; off := 0 |}.
    split_and!; [done | | done |].
    + unfold poke. cbn [buf_ blk off writeIdx_ readIdx_].
      change (load [b0; b1] 0) with (Ok b0). cbn [mbind res_bind].
      rewrite Hput by done. done.
    + unfold peek. cbn [commit buf_ blk off].
      change (load [<[Z.to_nat i := x]> b0; b1] 0)
        with (Ok (<[Z.to_nat i := x]> b0)).
      cbn [mbind res_bind]. by apply Hget.
  - exists {| blk := 1; off := 0 |},
      {| buf_ := [b0; <[Z.to_nat i := x]> b1]; writeIdx_ := 1; readIdx_ := 0 |},
      {| blk := 1; off := 0 |}.
    split_and!; [done | | done |].
    + unfold poke. cbn [buf_ blk off writeIdx_ readIdx_].
      change (load [b0; b1] 1) with (Ok b1). cbn [mbind res_bind].
      rewrite Hput by done. done.
    + unfold peek. cbn [commit buf_ blk off].
      change (load [b0; <[Z.to_nat i := x]> b1] 1)
        with (Ok (<[Z.to_nat i := x]> b1)).
      cbn [mbind res_bind]. by apply Hget.
Qed.

Lemma write_commit_read_witness :
  ∃ w db1 r,
    writeBuf (DoubleBuffer_ctor 128) = Ok w ∧
    poke (DoubleBuffer_ctor 128) w 0 123 = Ok db1 ∧
    readBuf (commit db1) = Ok r ∧
    peek (commit db1) r 0 = Ok 123.
Proof.
  apply (write_commit_read 128 (DoubleBuffer_ctor 128) 0 123);
    [apply rtc_refl | lia | lia].
Defined.

(** *** Alternation *)

(** C4: a constructed double buffer has write = buffer 0 and
    read = buffer 1; one [commit] gives write = buffer 1 and
    read = buffer 0; [commit] twice gives back the state it started from,
    for every state. *)
Theorem commit_involution (N : Z) :
  (writeIdx_ (DoubleBuffer_ctor N) = 0 ∧ readIdx_ (DoubleBuffer_ctor N) = 1) ∧
  (writeIdx_ (commit (DoubleBuffer_ctor N)) = 1 ∧
   readIdx_ (commit (DoubleBuffer_ctor N)) = 0) ∧
  commit (commit (DoubleBuffer_ctor N)) = DoubleBuffer_ctor N ∧
  ∀ s : DoubleBuffer, commit (commit s) = s.
Proof.
  assert (Hinv : ∀ s : DoubleBuffer, commit (commit s) = s).
  { intros [bufs wi ri]. unfold commit. cbn [buf_ writeIdx_ readIdx_].
    by rewrite !lxor_1_twice. }
  split_and!; [done.. | apply Hinv | exact Hinv].
Qed.

(** *** No data movement *)

(** C5: [commit] leaves [buf_] as it is, for every state: both element
    buffers, and hence what any pointer into them reads, are the same
    before and after; only the two role indices change. *)
Theorem commit_no_copy (db : DoubleBuffer) :
  buf_ (commit db) = buf_ db ∧
  ∀ (p : u16ptr) (i : Z), peek (commit db) p i = peek db p i.
Proof. split; [| intros p i]; reflexivity. Qed.

(** *** Roles *)

(** C6: the constructor assigns write = 0 and read = 1, and in every state
    reached from construction by [commit] calls (with any stores into the
    buffers between them) the two role indices differ and are, together,
    0 and 1. *)
Theorem roles_complementary (N : Z) (db : DoubleBuffer) :
  db_reachable N db →
  (writeIdx_ (DoubleBuffer_ctor N) = 0 ∧ readIdx_ (DoubleBuffer_ctor N) = 1) ∧
  writeIdx_ db ≠ readIdx_ db ∧
  ({[writeIdx_ db; readIdx_ db]} : gset Z) = {[0; 1]}.
Proof.
  intros [_ Hroles]%db_inv_reachable. split; [done |].
  destruct Hroles as [[-> ->] | [-> ->]]; split; [done | done | done |].
  apply set_eq. intros z. set_solver.
Qed.

Lemma roles_complementary_witness :
  db_reachable 128 (commit (commit (commit (DoubleBuffer_ctor 128)))) ∧
  (writeIdx_ (DoubleBuffer_ctor 128) = 0 ∧
   readIdx_ (DoubleBuffer_ctor 128) = 1) ∧
  writeIdx_ (commit (commit (commit (DoubleBuffer_ctor 128))))
    ≠ readIdx_ (commit (commit (commit (DoubleBuffer_ctor 128)))) ∧
  ({[writeIdx_ (commit (commit (commit (DoubleBuffer_ctor 128))));
     readIdx_ (commit (commit (commit (DoubleBuffer_ctor 128))))]} : gset Z)
    = {[0; 1]}.
Proof.
  assert (Hr : db_reachable 128 (commit (commit (commit (DoubleBuffer_ctor 128))))).
  { unfold db_reachable. do 3 (eapply rtc_l; [apply step_commit |]).
    apply rtc_refl. }
  split; [exact Hr | exact (roles_complementary 128 _ Hr)].
Defined.

(** X15: after [n] commits on a constructed double buffer the write view
    is buffer [n mod 2] and the read view is the other one. *)
Lemma commit_iter_roles (N : Z) (n : nat) :
  writeIdx_ (Nat.iter n commit (DoubleBuffer_ctor N)) = Z.of_nat n mod 2 ∧
  readIdx_ (Nat.iter n commit (DoubleBuffer_ctor N)) = 1 - Z.of_nat n mod 2.
Proof.
  induction n as [| n [IHw IHr]]; [done |].
  rewrite Nat.iter_succ.
  change (writeIdx_ (commit ?s)) with (Z.lxor (writeIdx_ s) 1).
  change (readIdx_ (commit ?s)) with (Z.lxor (readIdx_ s) 1).
  rewrite IHw, IHr.
  replace (Z.of_nat (S n)) with (Z.of_nat n + 1) by lia.
  pose proof (Z.mod_pos_bound (Z.of_nat n) 2 ltac:(lia)) as Hb.
  assert (Z.of_nat n mod 2 = 0 ∨ Z.of_nat n mod 2 = 1) as [E | E] by lia.
  - rewrite E. replace ((Z.of_nat n + 1) mod 2) with 1; [done |].
    rewrite Z.add_mod, E by lia. done.
  - rewrite E. replace ((Z.of_nat n + 1) mod 2) with 0; [done |].
    rewrite Z.add_mod, E by lia. done.
Qed.

(** *** Initial contents *)

(** C10: right after construction both buffers hold zeros: for every
    index [i] of [[0, N)], [readBuf()[i]] and [writeBuf()[i]] are 0. *)
Theorem ctor_zeroed (N i : Z) :
  0 ≤ i < N →
  ∃ r w,
    readBuf (DoubleBuffer_ctor N) = Ok r ∧
    writeBuf (DoubleBuffer_ctor N) = Ok w ∧
    peek (DoubleBuffer_ctor N) r i = Ok 0 ∧
    peek (DoubleBuffer_ctor N) w i = Ok 0.
Proof.
  intros Hi.
  assert (Hz : load (replicate (Z.to_nat N) 0) (0 + i) = Ok 0).
  { apply load_Ok. split; [lia |]. apply lookup_replicate_2. lia. }
  exists {| blk := 1; off := 0 |}, {| blk := 0; off := 0 |}.
  split_and!; [done | done | exact Hz | exact Hz].
Qed.

Lemma ctor_zeroed_witness :
  ∃ r w,
    readBuf (DoubleBuffer_ctor 128) = Ok r ∧
    writeBuf (DoubleBuffer_ctor 128) = Ok w ∧
    peek (DoubleBuffer_ctor 128) r 127 = Ok 0 ∧
    peek (DoubleBuffer_ctor 128) w 127 = Ok 0.
Proof. apply (ctor_zeroed 128 127). lia. Defined.

End DBufFacts.

(** ** The usage example *)

(** [demo()] runs without undefined behaviour: the pool ends with all 16
    slots free and its head back at slot 0, and the value read after the
    commit is the 123 written before it. *)
Example demo_runs :
  ∃ pool db,
    demo = Ok (pool, db, 123) ∧
    Pool.head_ pool = 0 ∧
    Pool.free_list 16 16 pool = Some (seqZ 0 16) ∧
    DBuf.writeIdx_ db = 1 ∧ DBuf.readIdx_ db = 0.
Proof. eexists _, _. split_and!; [vm_compute; reflexivity | done..]. Qed.

(** ** The event pool, seen by its callers *)

Module PoolUse.
Import Pool PoolFacts.

(** The state of a pool of two slots after one [acquire]. *)
Ltac reach_one_acquired :=
  eexists; split; [reflexivity |];
  eapply rtc_l; [| apply rtc_refl]; apply step_acquire; reflexivity.

Lemma deref_load (p : EventPool) (i : Z) (ev : Event) :
  deref p (slot_ptr i) = Ok ev ↔ load (storage_ p) i = Ok (Some ev).
Proof.
  unfold deref. destruct (load (storage_ p) i) as [[e |] |]; cbn;
    split; intros [=]; by subst.
Qed.

Lemma deref_same_slot (p p' : EventPool) (i : Z) :
  load (storage_ p') i = load (storage_ p) i →
  deref p' (slot_ptr i) = deref p (slot_ptr i).
Proof. unfold deref. by intros ->. Qed.

(** X1: for every capacity [1 ≤ N < 2^64] and whatever the [N] entries of
    [next_] held before, the constructor returns a pool with [head_ = 0],
    every link [next_[i] = i + 1] (the last one being the sentinel [N]) and
    no object in any slot. *)
Theorem ctor_links_every_slot (raw : list Z) (N : Z) :
  0 < N < SIZE_MOD → Z.of_nat (length raw) = N →
  ∃ p0, EventPool_ctor_from raw N = Ok p0 ∧
        head_ p0 = 0 ∧
        Z.of_nat (length (next_ p0)) = N ∧
        (∀ i, 0 ≤ i < N → load (next_ p0) i = Ok (i + 1)) ∧
        (∀ i, 0 ≤ i < N → load (storage_ p0) i = Ok None).
Proof.
  intros HN Hraw. rewrite EventPool_ctor_from_spec by done.
  eexists. split; [done |]. cbn [head_ next_ storage_]. split_and!.
  - done.
  - rewrite length_seqZ. lia.
  - intros i Hi. by apply load_seqZ_link.
  - intros i Hi. apply load_Ok. split; [lia |].
    apply lookup_replicate_2. lia.
Qed.

Lemma ctor_links_every_slot_witness :
  ∃ p0, EventPool_ctor_from [7; 7; 7] 3 = Ok p0 ∧
        head_ p0 = 0 ∧
        Z.of_nat (length (next_ p0)) = 3 ∧
        (∀ i, 0 ≤ i < 3 → load (next_ p0) i = Ok (i + 1)) ∧
        (∀ i, 0 ≤ i < 3 → load (storage_ p0) i = Ok None).
Proof.
  apply (ctor_links_every_slot [7; 7; 7] 3); [unfold SIZE_MOD; lia | reflexivity].
Defined.

(** X2: in a state reached from a fresh pool in which some slot is not
    held, [acquire] returns a handle to a slot of [[0, N)] that no caller
    holds, with a value-initialised [Event] in it, and the objects behind
    all held handles are as they were. *)
Theorem acquire_hands_out_unheld_slot (N : Z) (p : EventPool) (live : gset Z) :
  0 < N < SIZE_MOD → reachable N (p, live) →
  (∃ k, 0 ≤ k < N ∧ k ∉ live) →
  ∃ p' i, acquire N p = Ok (p', slot_ptr i) ∧
          0 ≤ i < N ∧ (i ∉ live) ∧
          deref p' (slot_ptr i) = Ok Event_zero ∧
          ∀ j, j ∈ live → deref p' (slot_ptr j) = deref p (slot_ptr j).
Proof.
  intros HN [Hnl Hsl (fl & Hch & Hnd & Hfl) Hlive]%pool_inv_reachable
    (k & Hk & Hkl); [| done].
  cbn [fst snd] in *.
  inversion Hch as [Hend | h h' l Hne Hld Hch' Hhd]; subst fl.
  - exfalso. eapply not_elem_of_nil. apply (Hfl k). done.
  - assert (0 ≤ head_ p < N ∧ head_ p ∉ live) as [Hr Hnl'] by (apply Hfl; left).
    exists {| storage_ := <[Z.to_nat (head_ p) := Some Event_zero]> (storage_ p);
              next_ := next_ p; head_ := h' |}, (head_ p).
    assert (Hst : store (storage_ p) (head_ p) (Some Event_zero)
                  = Ok (<[Z.to_nat (head_ p) := Some Event_zero]> (storage_ p)))
      by (apply store_in_range; lia).
    split_and!; [| lia | lia | done | |].
    + unfold acquire. rewrite bool_decide_eq_false_2 by done. cbn zeta.
      rewrite Hld. cbn [mbind res_bind]. rewrite Hst. done.
    + apply deref_load. cbn [storage_]. by apply (load_store_eq _ _ _ _ Hst).
    + intros j Hj. apply deref_same_slot. cbn [storage_].
      apply (load_store_ne _ _ _ _ _ Hst).
      intros Heq. rewrite Heq in Hnl'. done.
Qed.

Lemma acquire_hands_out_unheld_slot_witness :
  ∃ p' i,
    acquire 2
      {| storage_ := [Some Event_zero; None]; next_ := [1; 2]; head_ := 1 |}
      = Ok (p', slot_ptr i) ∧
    0 ≤ i < 2 ∧ (i ∉ ({[0]} ∪ ∅ : gset Z)) ∧
    deref p' (slot_ptr i) = Ok Event_zero ∧
    ∀ j, j ∈ ({[0]} ∪ ∅ : gset Z) →
         deref p' (slot_ptr j)
         = deref {| storage_ := [Some Event_zero; None];
                    next_ := [1; 2]; head_ := 1 |} (slot_ptr j).
Proof.
  apply (acquire_hands_out_unheld_slot 2);
    [unfold SIZE_MOD; lia | reach_one_acquired |].
  exists 1. split; [lia | set_solver].
Defined.

(** X3: in a state reached from a fresh pool, [acquire] returns [nullptr]
    exactly when the handles of all [N] slots are held. *)
Theorem acquire_null_iff_all_held (N : Z) (p : EventPool) (live : gset Z) :
  0 < N < SIZE_MOD → reachable N (p, live) →
  acquire N p = Ok (p, nullptr) ↔ ∀ k, 0 ≤ k < N → k ∈ live.
Proof.
  intros HN Hreach.
  pose proof (pool_inv_reachable N _ HN Hreach)
    as [Hnl Hsl (fl & Hch & Hnd & Hfl) Hlive].
  cbn [fst snd] in *. split.
  - intros [(Hh & _) | (_ & [=] & _)]%acquire_inv k Hk.
    inversion Hch as [Hend | h h' l Hne]; [subst fl | done].
    destruct (decide (k ∈ live)) as [| Hnot]; [done |].
    exfalso. eapply not_elem_of_nil. apply (Hfl k). done.
  - intros Hall. unfold acquire.
    inversion Hch as [Hend | h h' l Hne Hld Hch' Hhd]; subst fl.
    + by rewrite bool_decide_eq_true_2.
    + exfalso. assert (0 ≤ head_ p < N ∧ head_ p ∉ live) as [Hr Hn]
        by (apply Hfl; left). by apply Hn, Hall.
Qed.

Lemma acquire_null_iff_all_held_witness :
  acquire 2
    {| storage_ := [Some Event_zero; None]; next_ := [1; 2]; head_ := 1 |}
    = Ok ({| storage_ := [Some Event_zero; None];
             next_ := [1; 2]; head_ := 1 |}, nullptr)
  ↔ ∀ k, 0 ≤ k < 2 → k ∈ ({[0]} ∪ ∅ : gset Z).
Proof.
  apply (acquire_null_iff_all_held 2);
    [unfold SIZE_MOD; lia | reach_one_acquired].
Defined.

(** A slot of [[0, N)] that no caller holds contains no object. *)
Lemma unheld_slot_raw (N : Z) (p : EventPool) (live : gset Z) (i : Z) :
  pool_inv N (p, live) → 0 ≤ i < N → i ∉ live →
  storage_ p !! Z.to_nat i = Some None.
Proof.
  intros [_ Hsl _ Hlive] Hi Hnot. cbn [fst snd] in *.
  destruct (lookup_lt_is_Some_2 (storage_ p) (Z.to_nat i)) as [o Ho]; [lia |].
  destruct o as [ev |]; [| done].
  exfalso. apply Hnot, Hlive. exists ev. apply load_Ok. split; [lia | done].
Qed.

(** X4: in a state reached from a fresh pool in which some slot is not
    held, [acquire] followed by [release] of the handle it returned gives
    back the pool as it was before the two calls: the same [head_], the
    same links and the same slots. *)
Theorem acquire_release_restores (N : Z) (p : EventPool) (live : gset Z) :
  0 < N < SIZE_MOD → reachable N (p, live) →
  (∃ k, 0 ≤ k < N ∧ k ∉ live) →
  ∃ p1 a, acquire N p = Ok (p1, slot_ptr a) ∧
          release p1 (slot_ptr a) = Ok p.
Proof.
  intros HN Hreach (k & Hk & Hkl).
  pose proof (pool_inv_reachable N _ HN Hreach) as Hinv.
  pose proof Hinv as [Hnl Hsl (fl & Hch & Hnd & Hfl) Hlive].
  cbn [fst snd] in *.
  inversion Hch as [Hend | h h' l Hne Hld Hch' Hhd]; subst fl.
  { exfalso. eapply not_elem_of_nil. apply (Hfl k). done. }
  assert (0 ≤ head_ p < N ∧ head_ p ∉ live) as [Hr Hnot] by (apply Hfl; left).
  pose proof (unheld_slot_raw N p live (head_ p) Hinv Hr Hnot) as Hraw.
  apply load_Ok in Hld as [_ Hlk].
  eexists _, (head_ p). split.
  - unfold acquire. rewrite bool_decide_eq_false_2 by done. cbn zeta.
    replace (load (next_ p) (head_ p)) with (Ok h')
      by (symmetry; apply load_Ok; split; [lia | done]).
    cbn [mbind res_bind]. rewrite store_in_range by lia. done.
  - unfold release. cbn [storage_ next_ head_].
    rewrite store_in_range by (rewrite ?length_insert; lia).
    cbn [mbind res_bind].
    rewrite store_in_range by (rewrite ?length_insert; lia).
    cbn [mbind res_bind].
    rewrite list_insert_insert_eq, !list_insert_id by done.
    by destruct p.
Qed.

Lemma acquire_release_restores_witness :
  ∃ p1 a,
    acquire 2
      {| storage_ := [Some Event_zero; None]; next_ := [1; 2]; head_ := 1 |}
      = Ok (p1, slot_ptr a) ∧
    release p1 (slot_ptr a)
      = Ok {| storage_ := [Some Event_zero; None];
              next_ := [1; 2]; head_ := 1 |}.
Proof.
  apply (acquire_release_restores 2 _ ({[0]} ∪ ∅));
    [unfold SIZE_MOD; lia | reach_one_acquired |].
  exists 1. split; [lia | set_solver].
Defined.

(** X5: in a state reached from a fresh pool, [release] of a held handle
    followed by [acquire] returns the same slot again (the free list is
    last-in first-out), now holding a value-initialised [Event]; [head_]
    is what it was before the two calls, and the objects behind the other
    held handles are untouched by both calls. *)
Theorem release_acquire_same_slot
  (N : Z) (p : EventPool) (live : gset Z) (i : Z) :
  0 < N < SIZE_MOD → reachable N (p, live) → i ∈ live →
  ∃ p1 p2,
    release p (slot_ptr i) = Ok p1 ∧
    acquire N p1 = Ok (p2, slot_ptr i) ∧
    deref p2 (slot_ptr i) = Ok Event_zero ∧
    head_ p2 = head_ p ∧
    ∀ j, j ∈ live → j ≠ i →
         deref p1 (slot_ptr j) = deref p (slot_ptr j) ∧
         deref p2 (slot_ptr j) = deref p (slot_ptr j).
Proof.
  intros HN [Hnl Hsl _ Hlive]%pool_inv_reachable Hi; [| done].
  cbn [fst snd] in *.
  pose proof Hi as [ev Hr%load_in_range]%Hlive.
  assert (Hs1 : store (storage_ p) i None
                = Ok (<[Z.to_nat i := None]> (storage_ p)))
    by (apply store_in_range; lia).
  assert (Hn1 : store (next_ p) i (head_ p)
                = Ok (<[Z.to_nat i := head_ p]> (next_ p)))
    by (apply store_in_range; lia).
  assert (Hs2 : store (<[Z.to_nat i := None]> (storage_ p)) i (Some Event_zero)
                = Ok (<[Z.to_nat i := Some Event_zero]>
                        (<[Z.to_nat i := None]> (storage_ p))))
    by (apply store_in_range; rewrite length_insert; lia).
  exists {| storage_ := <[Z.to_nat i := None]> (storage_ p);
            next_ := <[Z.to_nat i := head_ p]> (next_ p);
            head_ := i |},
         {| storage_ := <[Z.to_nat i := Some Event_zero]>
                          (<[Z.to_nat i := None]> (storage_ p));
            next_ := <[Z.to_nat i := head_ p]> (next_ p);
            head_ := head_ p |}.
  split_and!.
  - unfold release. rewrite Hs1. cbn [mbind res_bind]. by rewrite Hn1.
  - unfold acquire. cbn [storage_ next_ head_].
    rewrite bool_decide_eq_false_2 by lia. cbn zeta.
    rewrite (load_store_eq _ _ _ _ Hn1). cbn [mbind res_bind].
    by rewrite Hs2.
  - apply deref_load. cbn [storage_]. by apply (load_store_eq _ _ _ _ Hs2).
  - done.
  - intros j Hj Hne. split; apply deref_same_slot; cbn [storage_].
    + by apply (load_store_ne _ _ _ _ _ Hs1).
    + rewrite (load_store_ne _ _ _ _ _ Hs2) by done.
      by apply (load_store_ne _ _ _ _ _ Hs1).
Qed.

Lemma release_acquire_same_slot_witness :
  ∃ p1 p2,
    release
      {| storage_ := [Some Event_zero; None]; next_ := [1; 2]; head_ := 1 |}
      (slot_ptr 0) = Ok p1 ∧
    acquire 2 p1 = Ok (p2, slot_ptr 0) ∧
    deref p2 (slot_ptr 0) = Ok Event_zero ∧
    head_ p2 = 1 ∧
    ∀ j, j ∈ ({[0]} ∪ ∅ : gset Z) → j ≠ 0 →
         deref p1 (slot_ptr j)
         = deref {| storage_ := [Some Event_zero; None];
                    next_ := [1; 2]; head_ := 1 |} (slot_ptr j) ∧
         deref p2 (slot_ptr j)
         = deref {| storage_ := [Some Event_zero; None];
                    next_ := [1; 2]; head_ := 1 |} (slot_ptr j).
Proof.
  apply (release_acquire_same_slot 2
           {| storage_ := [Some Event_zero; None]; next_ := [1; 2]; head_ := 1 |}
           ({[0]} ∪ ∅) 0);
    [unfold SIZE_MOD; lia | reach_one_acquired | set_solver].
Defined.

(** X6: in a state reached from a fresh pool no slot is lost: the number
    of held handles plus the number of slots on the free list is [N]. *)
Theorem held_plus_free_is_capacity (N : Z) (p : EventPool) (live : gset Z) :
  0 < N < SIZE_MOD → reachable N (p, live) →
  ∃ fl, free_list (Z.to_nat N) N p = Some fl ∧
        Z.of_nat (size live) + Z.of_nat (length fl) = N.
Proof.
  intros HN [Hnl Hsl (fl & Hch & Hnd & Hfl) Hlive]%pool_inv_reachable;
    [| done].
  cbn [fst snd] in *. exists fl.
  assert (Hlr : ∀ i, i ∈ live → 0 ≤ i < N).
  { intros i [ev Hld%load_in_range]%Hlive. lia. }
  assert (Hlen : Z.of_nat (length fl) ≤ N).
  { apply NoDup_range_length; [lia | done |]. intros i Hi%Hfl. tauto. }
  split; [apply chain_walk; [done | lia] |].
  assert (Hcover : live ∪ list_to_set fl = list_to_set (seqZ 0 N)).
  { apply set_eq. intros i.
    rewrite elem_of_union, !elem_of_list_to_set, elem_of_seqZ, (Hfl i).
    split.
    - intros [Hi%Hlr | [Hi _]]; lia.
    - intros Hi. destruct (decide (i ∈ live)); [by left | right].
      split; [lia | done]. }
  assert (Hdisj : live ## list_to_set fl).
  { intros i Hi. rewrite elem_of_list_to_set, (Hfl i). tauto. }
  apply (f_equal size) in Hcover.
  rewrite size_union, !size_list_to_set, length_seqZ in Hcover
    by (done || apply NoDup_seqZ).
  lia.
Qed.

Lemma held_plus_free_is_capacity_witness :
  ∃ fl,
    free_list 2 2
      {| storage_ := [Some Event_zero; None]; next_ := [1; 2]; head_ := 1 |}
      = Some fl ∧
    Z.of_nat (size ({[0]} ∪ ∅ : gset Z)) + Z.of_nat (length fl) = 2.
Proof.
  apply (held_plus_free_is_capacity 2 _ ({[0]} ∪ ∅));
    [unfold SIZE_MOD; lia | reach_one_acquired].
Defined.

End PoolUse.

(** ** The double buffer, seen by its callers *)

Module DBufUse.
Import DBuf DBufFacts.

(** A reachable double buffer is one of two shapes. *)
Lemma db_reachable_cases (N : Z) (db : DoubleBuffer) :
  db_reachable N db →
  ∃ b0 b1, length b0 = Z.to_nat N ∧ length b1 = Z.to_nat N ∧
    (db = {| buf_ := [b0; b1]; writeIdx_ := 0; readIdx_ := 1 |} ∨
     db = {| buf_ := [b0; b1]; writeIdx_ := 1; readIdx_ := 0 |}).
Proof.
  intros [(b0 & b1 & Hb & Hl0 & Hl1) Hroles]%db_inv_reachable.
  destruct db as [bufs wi ri]. cbn [buf_ writeIdx_ readIdx_] in *. subst bufs.
  exists b0, b1. split_and!; [done.. |].
  destruct Hroles as [[-> ->] | [-> ->]]; [by left | by right].
Qed.

(** Every element of a reachable double buffer is a [uint16_t] value. *)
Lemma db_values_uint16 (N : Z) (db : DoubleBuffer) :
  db_reachable N db →
  Forall (Forall (λ v, 0 ≤ v < 2 ^ 16)) (buf_ db).
Proof.
  unfold db_reachable. intros Hrtc.
  eapply (rtc_ind_r (λ d, Forall (Forall (λ v, 0 ≤ v < 2 ^ 16)) (buf_ d)));
    [| | exact Hrtc].
  - cbn. repeat constructor; apply Forall_replicate; lia.
  - intros d1 d2 _ Hstep IH.
    destruct Hstep as [d1 | d1 p i x d2 Hp]; [done |].
    apply poke_inv in Hp as (b & b' & bs & Hld & Hst & Hbs & ->).
    cbn [buf_]. apply store_Ok in Hbs as [_ ->].
    apply store_Ok in Hst as [_ ->]. apply load_Ok in Hld as [_ Hld].
    apply Forall_insert; [done |]. apply Forall_insert.
    + by eapply Forall_lookup_1 in IH.
    + unfold to_uint16. apply Z.mod_pos_bound. lia.
Qed.

(** X7: in every reachable state and for every index [i] of [[0, N)], a
    store through the write view succeeds and is not seen through the read
    view: [readBuf()] is the same pointer and every element read through
    it is the same as before the store. *)
Theorem write_hidden_from_read_view (N : Z) (db : DoubleBuffer) (i x : Z) :
  db_reachable N db → 0 ≤ i < N →
  ∃ w db1 r,
    writeBuf db = Ok w ∧ poke db w i x = Ok db1 ∧
    readBuf db = Ok r ∧ readBuf db1 = Ok r ∧
    ∀ j, peek db1 r j = peek db r j.
Proof.
  intros (b0 & b1 & Hl0 & Hl1 & [-> | ->])%db_reachable_cases Hi.
  - exists {| blk := 0; off := 0 |},
      {| buf_ := [<[Z.to_nat i := to_uint16 x]> b0; b1];
         writeIdx_ := 0; readIdx_ := 1 |},
      {| blk := 1; off := 0 |}.
    split_and!; [done | | done | done | done].
    unfold poke. cbn [buf_ blk off writeIdx_ readIdx_].
    change (load [b0; b1] 0) with (Ok b0). cbn [mbind res_bind].
    rewrite store_in_range by lia. done.
  - exists {| blk := 1; off := 0 |},
      {| buf_ := [b0; <[Z.to_nat i := to_uint16 x]> b1];
         writeIdx_ := 1; readIdx_ := 0 |},
      {| blk := 0; off := 0 |}.
    split_and!; [done | | done | done | done].
    unfold poke. cbn [buf_ blk off writeIdx_ readIdx_].
    change (load [b0; b1] 1) with (Ok b1). cbn [mbind res_bind].
    rewrite store_in_range by lia. done.
Qed.

Lemma write_hidden_from_read_view_witness :
  ∃ w db1 r,
    writeBuf (DoubleBuffer_ctor 128) = Ok w ∧
    poke (DoubleBuffer_ctor 128) w 5 123 = Ok db1 ∧
    readBuf (DoubleBuffer_ctor 128) = Ok r ∧ readBuf db1 = Ok r ∧
    ∀ j, peek db1 r j = peek (DoubleBuffer_ctor 128) r j.
Proof.
  apply (write_hidden_from_read_view 128 (DoubleBuffer_ctor 128) 5 123);
    [apply rtc_refl | lia].
Defined.

(** X8: in every reachable state [commit] exchanges the two views: the
    write view after the call is the read view before it and the other way
    round, so what the new write view holds is what the reader last saw. *)
Theorem commit_exchanges_views (N : Z) (db : DoubleBuffer) :
  db_reachable N db →
  ∃ w r,
    writeBuf db = Ok w ∧ readBuf db = Ok r ∧ w ≠ r ∧
    writeBuf (commit db) = Ok r ∧ readBuf (commit db) = Ok w ∧
    ∀ j, peek (commit db) r j = peek db r j ∧
         peek (commit db) w j = peek db w j.
Proof.
  intros (b0 & b1 & Hl0 & Hl1 & [-> | ->])%db_reachable_cases.
  - exists {| blk := 0; off := 0 |}, {| blk := 1; off := 0 |}.
    split_and!; done.
  - exists {| blk := 1; off := 0 |}, {| blk := 0; off := 0 |}.
    split_and!; done.
Qed.

Lemma commit_exchanges_views_witness :
  ∃ w r,
    writeBuf (commit (DoubleBuffer_ctor 4)) = Ok w ∧
    readBuf (commit (DoubleBuffer_ctor 4)) = Ok r ∧ w ≠ r ∧
    writeBuf (commit (commit (DoubleBuffer_ctor 4))) = Ok r ∧
    readBuf (commit (commit (DoubleBuffer_ctor 4))) = Ok w ∧
    ∀ j, peek (commit (commit (DoubleBuffer_ctor 4))) r j
           = peek (commit (DoubleBuffer_ctor 4)) r j ∧
         peek (commit (commit (DoubleBuffer_ctor 4))) w j
           = peek (commit (DoubleBuffer_ctor 4)) w j.
Proof.
  apply (commit_exchanges_views 4 (commit (DoubleBuffer_ctor 4))).
  eapply rtc_l; [apply step_commit | apply rtc_refl].
Defined.

Lemma load_defined_iff {A : Type} (a : list A) (i : Z) :
  load a i = UB ↔ ¬ (0 ≤ i < Z.of_nat (length a)).
Proof.
  unfold load. case_bool_decide as Hi.
  - destruct (a !! Z.to_nat i) eqn:E.
    + apply lookup_lt_Some in E. split; [done | lia].
    + apply lookup_ge_None in E. split; [lia | done].
  - split; [lia | done].
Qed.

Lemma store_defined_iff {A : Type} (a : list A) (i : Z) (x : A) :
  store a i x = UB ↔ ¬ (0 ≤ i < Z.of_nat (length a)).
Proof. unfold store. case_bool_decide; split; done. Qed.

(** X9: in every reachable state the two views have exactly [N] elements:
    at an index of [[0, N)] both views read a value of [[0, 2^16)]; at any
    other index a read through either view and a store through the write
    view are undefined (nothing checks the index, nothing grows). *)
Theorem views_have_N_elements (N : Z) (db : DoubleBuffer) :
  db_reachable N db →
  ∃ w r,
    writeBuf db = Ok w ∧ readBuf db = Ok r ∧
    (∀ i, 0 ≤ i < N →
       ∃ vw vr, peek db w i = Ok vw ∧ peek db r i = Ok vr ∧
                0 ≤ vw < 2 ^ 16 ∧ 0 ≤ vr < 2 ^ 16) ∧
    (∀ i, ¬ (0 ≤ i < N) →
       peek db w i = UB ∧ peek db r i = UB ∧ ∀ x, poke db w i x = UB).
Proof.
  intros Hreach. pose proof (db_values_uint16 N db Hreach) as Hvals.
  apply db_reachable_cases in Hreach
    as (b0 & b1 & Hl0 & Hl1 & Hdb).
  assert (Hin : ∀ b : list Z, length b = Z.to_nat N →
            Forall (λ v, 0 ≤ v < 2 ^ 16) b →
            ∀ i, 0 ≤ i < N → ∃ v, load b (0 + i) = Ok v ∧ 0 ≤ v < 2 ^ 16).
  { intros b Hl Hb i Hi.
    destruct (lookup_lt_is_Some_2 b (Z.to_nat i)) as [v Hv]; [lia |].
    exists v. split; [apply load_Ok; split; [lia | by rewrite Z.add_0_l] |].
    by eapply Forall_lookup_1 in Hb. }
  assert (Hout : ∀ b : list Z, length b = Z.to_nat N →
            ∀ i, ¬ (0 ≤ i < N) →
            load b (0 + i) = UB ∧ ∀ x, store b (0 + i) x = UB).
  { intros b Hl i Hi. split; [| intros x].
    - apply load_defined_iff. lia.
    - apply store_defined_iff. lia. }
  assert (Hv0 : Forall (λ v, 0 ≤ v < 2 ^ 16) b0 ∧
                Forall (λ v, 0 ≤ v < 2 ^ 16) b1).
  { destruct Hdb as [-> | ->]; cbn [buf_] in Hvals;
      apply Forall_cons in Hvals as [? [? _]%Forall_cons]; done. }
  destruct Hv0 as [Hv0 Hv1].
  destruct Hdb as [-> | ->].
  - exists {| blk := 0; off := 0 |}, {| blk := 1; off := 0 |}.
    split_and!; [done | done | |].
    + intros i Hi.
      destruct (Hin b0 Hl0 Hv0 i Hi) as (vw & Hw & Hrw).
      destruct (Hin b1 Hl1 Hv1 i Hi) as (vr & Hr & Hrr).
      exists vw, vr. split; [exact Hw |]. split; [exact Hr | lia].
    + intros i Hi.
      destruct (Hout b0 Hl0 i Hi) as [Hp0 Hs0].
      destruct (Hout b1 Hl1 i Hi) as [Hp1 _].
      split; [exact Hp0 |]. split; [exact Hp1 |]. intros x. unfold poke.
      cbn [buf_ blk off]. change (load [b0; b1] 0) with (Ok b0).
      cbn [mbind res_bind]. by rewrite Hs0.
  - exists {| blk := 1; off := 0 |}, {| blk := 0; off := 0 |}.
    split_and!; [done | done | |].
    + intros i Hi.
      destruct (Hin b1 Hl1 Hv1 i Hi) as (vw & Hw & Hrw).
      destruct (Hin b0 Hl0 Hv0 i Hi) as (vr & Hr & Hrr).
      exists vw, vr. split; [exact Hw |]. split; [exact Hr | lia].
    + intros i Hi.
      destruct (Hout b1 Hl1 i Hi) as [Hp1 Hs1].
      destruct (Hout b0 Hl0 i Hi) as [Hp0 _].
      split; [exact Hp1 |]. split; [exact Hp0 |]. intros x. unfold poke.
      cbn [buf_ blk off]. change (load [b0; b1] 1) with (Ok b1).
      cbn [mbind res_bind]. by rewrite Hs1.
Qed.

Lemma views_have_N_elements_witness :
  ∃ w r,
    writeBuf (commit (DoubleBuffer_ctor 4)) = Ok w ∧
    readBuf (commit (DoubleBuffer_ctor 4)) = Ok r ∧
    (∀ i, 0 ≤ i < 4 →
       ∃ vw vr, peek (commit (DoubleBuffer_ctor 4)) w i = Ok vw ∧
                peek (commit (DoubleBuffer_ctor 4)) r i = Ok vr ∧
                0 ≤ vw < 2 ^ 16 ∧ 0 ≤ vr < 2 ^ 16) ∧
    (∀ i, ¬ (0 ≤ i < 4) →
       peek (commit (DoubleBuffer_ctor 4)) w i = UB ∧
       peek (commit (DoubleBuffer_ctor 4)) r i = UB ∧
       ∀ x, poke (commit (DoubleBuffer_ctor 4)) w i x = UB).
Proof.
  apply (views_have_N_elements 4 (commit (DoubleBuffer_ctor 4))).
  eapply rtc_l; [apply step_commit | apply rtc_refl].
Defined.

(** X10: in every reachable state, for every index [i] of [[0, N)] and
    every integer [x], the store [writeBuf()[i] = x] keeps the write view
    where it is, makes element [i] of it read [x mod 2^16] (the conversion
    to [uint16_t]) and leaves every other element of it unchanged. *)
Theorem write_view_store (N : Z) (db : DoubleBuffer) (i x : Z) :
  db_reachable N db → 0 ≤ i < N →
  ∃ w db1,
    writeBuf db = Ok w ∧ poke db w i x = Ok db1 ∧
    writeBuf db1 = Ok w ∧
    peek db1 w i = Ok (x mod 2 ^ 16) ∧
    ∀ j, j ≠ i → peek db1 w j = peek db w j.
Proof.
  intros (b0 & b1 & Hl0 & Hl1 & Hdb)%db_reachable_cases Hi.
  assert (Hput : ∀ b : list Z, length b = Z.to_nat N →
            store b (0 + i) (to_uint16 x)
            = Ok (<[Z.to_nat i := to_uint16 x]> b)).
  { intros b Hl. rewrite store_in_range by lia. by rewrite Z.add_0_l. }
  assert (Hget : ∀ b : list Z, length b = Z.to_nat N →
            load (<[Z.to_nat i := to_uint16 x]> b) (0 + i)
            = Ok (x mod 2 ^ 16)).
  { intros b Hl. apply load_Ok. split; [lia |]. rewrite Z.add_0_l.
    apply list_lookup_insert_eq. lia. }
  assert (Hother : ∀ (b : list Z) (j : Z), j ≠ i →
            load (<[Z.to_nat i := to_uint16 x]> b) (0 + j) = load b (0 + j)).
  { intros b j Hne. unfold load. case_bool_decide; [| done].
    rewrite list_lookup_insert_ne; [done | lia]. }
  destruct Hdb as [-> | ->].
  - exists {| blk := 0; off := 0 |},
      {| buf_ := [<[Z.to_nat i := to_uint16 x]> b0; b1];
         writeIdx_ := 0; readIdx_ := 1 |}.
    split_and!; [done | | done | by apply Hget |].
    + unfold poke. cbn [buf_ blk off writeIdx_ readIdx_].
      change (load [b0; b1] 0) with (Ok b0). cbn [mbind res_bind].
      by rewrite Hput.
    + intros j Hne. by apply Hother.
  - exists {| blk := 1; off := 0 |},
      {| buf_ := [b0; <[Z.to_nat i := to_uint16 x]> b1];
         writeIdx_ := 1; readIdx_ := 0 |}.
    split_and!; [done | | done | by apply Hget |].
    + unfold poke. cbn [buf_ blk off writeIdx_ readIdx_].
      change (load [b0; b1] 1) with (Ok b1). cbn [mbind res_bind].
      by rewrite Hput.
    + intros j Hne. by apply Hother.
Qed.

Lemma write_view_store_witness :
  ∃ w db1,
    writeBuf (DoubleBuffer_ctor 128) = Ok w ∧
    poke (DoubleBuffer_ctor 128) w 0 65659 = Ok db1 ∧
    writeBuf db1 = Ok w ∧
    peek db1 w 0 = Ok (65659 mod 2 ^ 16) ∧
    ∀ j, j ≠ 0 → peek db1 w j = peek (DoubleBuffer_ctor 128) w j.
Proof.
  apply (write_view_store 128 (DoubleBuffer_ctor 128) 0 65659);
    [apply rtc_refl | lia].
Defined.

End DBufUse.

(** ** The usage example, as a whole *)

(** X11: [demo()] meets no undefined behaviour; its one acquire/release
    pair leaves the pool exactly as the constructor made it, and after the
    commit the reader sees the 123 stored before it, in buffer 0, while the
    other buffer is still all zeros. *)
Theorem demo_pool_restored_value_read :
  ∃ p0 db,
    Pool.EventPool_ctor 16 = Ok p0 ∧
    demo = Ok (p0, db, 123) ∧
    DBuf.buf_ db = [<[0%nat := 123]> (replicate 128 0); replicate 128 0] ∧
    DBuf.writeIdx_ db = 1 ∧ DBuf.readIdx_ db = 0.
Proof.
  eexists _, _. split; [reflexivity |].
  split; [vm_compute; reflexivity |]. split_and!; reflexivity.
Qed.

(** ** The strategy test *)

Module StratFacts.
Import Strat.

(** X12: through a [Ctx], [Inc] maps every [int] below [INT_MAX] to its
    successor and overflows at [INT_MAX]; [DoubleS] maps every [int] of
    [[-2^30, 2^30)] to its double and overflows everywhere else; whatever
    either returns is an [int] again. *)
Theorem run_ranges (v : Z) :
  INT_MIN ≤ v ≤ INT_MAX →
  run {| s := Inc |} v = (if bool_decide (v = INT_MAX) then UB else Ok (v + 1)) ∧
  run {| s := DoubleS |} v
    = (if bool_decide (- 2 ^ 30 ≤ v < 2 ^ 30) then Ok (2 * v) else UB) ∧
  ∀ (st : Strategy) (r : Z),
    st = Inc ∨ st = DoubleS → run {| s := st |} v = Ok r →
    INT_MIN ≤ r ≤ INT_MAX.
Proof.
  unfold INT_MIN, INT_MAX. intros Hv. split_and!.
  - unfold run, Inc, int_result, INT_MIN, INT_MAX. cbn [s apply].
    repeat case_bool_decide; (done || lia || (f_equal; lia)).
  - unfold run, DoubleS, int_result, INT_MIN, INT_MAX. cbn [s apply].
    repeat case_bool_decide; (done || lia || (f_equal; lia)).
  - intros st r [-> | ->]; unfold run, Inc, DoubleS, int_result,
      INT_MIN, INT_MAX; cbn [s apply]; case_bool_decide; intros [=]; lia.
Qed.

Lemma run_ranges_witness :
  run {| s := Inc |} 5 = (if bool_decide (5 = INT_MAX) then UB else Ok (5 + 1)) ∧
  run {| s := DoubleS |} 5
    = (if bool_decide (- 2 ^ 30 ≤ 5 < 2 ^ 30) then Ok (2 * 5) else UB) ∧
  ∀ (st : Strategy) (r : Z),
    st = Inc ∨ st = DoubleS → run {| s := st |} 5 = Ok r →
    INT_MIN ≤ r ≤ INT_MAX.
Proof. apply (run_ranges 5). unfold INT_MIN, INT_MAX. lia. Defined.

(** X13: the two strategies do not commute: wherever both orders are
    defined, increment-then-double is one more than double-then-increment,
    so a context whose strategy is exchanged between two runs gives a
    result that depends on the order. *)
Theorem strategies_do_not_commute (v a b c d : Z) :
  run {| s := Inc |} v = Ok a → run {| s := DoubleS |} a = Ok b →
  run {| s := DoubleS |} v = Ok c → run {| s := Inc |} c = Ok d →
  b = d + 1.
Proof.
  unfold run, Inc, DoubleS, int_result. cbn [s apply].
  repeat case_bool_decide; intros [=] [=] [=] [=]; lia.
Qed.

Lemma strategies_do_not_commute_witness :
  run {| s := Inc |} 5 = Ok 6 ∧ run {| s := DoubleS |} 6 = Ok 12 ∧
  run {| s := DoubleS |} 5 = Ok 10 ∧ run {| s := Inc |} 10 = Ok 11 ∧
  12 = 11 + 1.
Proof.
  split_and!; [reflexivity.. |].
  apply (strategies_do_not_commute 5 6 12 10 11); reflexivity.
Defined.

(** X14: [main] meets no undefined behaviour, neither [assert] fails, and
    it returns 0 after printing the line [strategy test ok]. *)
Theorem main_passes :
  main = Ok (Returned 0 ("strategy test ok" +:+ String "010"%char EmptyString)).
Proof. reflexivity. Qed.

End StratFacts.
